(** * The blackjack round engine of blackjack-store

    A shallow embedding of [src/lib/game.ts] (deck, seeded shuffle, scoring)
    and of the [hit], [stand] and [start] route handlers, with the
    properties of the round engine proved about them. *)

From Stdlib Require Import ZArith Lia PrimFloat FloatOps SpecFloat Uint63.
From stdpp Require Import base numbers list strings gmap.

Local Open Scope Z_scope.
Local Set Warnings "-clear-no-such-hyp".

(** ** JavaScript numbers

    The numbers of the engine are integers, kept as [Z]; the conversions
    that the bit operators apply are written out.  A double represents them
    exactly, but for the product in [fnv1a32], whose rounding is written out
    too ([roundDouble]). *)

Module JS.

Definition two32 : Z := 4294967296.

(** [x >>> 0] on an integer. *)
Definition toUint32 (x : Z) : Z := x mod two32.

(** [x | 0] on an integer. *)
Definition toInt32 (x : Z) : Z := (x + 2147483648) mod two32 - 2147483648.

(** [a ^ b], [a | b]: both sides to int32, result an int32. *)
Definition xor (a b : Z) : Z := toInt32 (Z.lxor (toInt32 a) (toInt32 b)).
Definition or (a b : Z) : Z := toInt32 (Z.lor (toInt32 a) (toInt32 b)).

(** [a >>> n] for [0 <= n < 32]. *)
Definition ushr (a n : Z) : Z := Z.shiftr (toUint32 a) n.

(** [Math.imul(a, b)]. *)
Definition imul (a b : Z) : Z := toInt32 (toInt32 a * toInt32 b).

(** The product [a * b] of two doubles that hold non-negative integers: the
    exact product rounded to the 53 bits of a double, to nearest and to even
    on a tie.  Below [2^53] nothing is lost. *)
Definition roundDouble (p : Z) : Z :=
  if p <? 2 ^ 53 then p
  else
    let e := Z.log2 p - 52 in
    let q := p / 2 ^ e in
    let r := p mod 2 ^ e in
    let half := 2 ^ (e - 1) in
    if r <? half then q * 2 ^ e
    else if half <? r then (q + 1) * 2 ^ e
    else if Z.even q then q * 2 ^ e
    else (q + 1) * 2 ^ e.

Definition mul (a b : Z) : Z := roundDouble (a * b).

(** The doubles themselves, for the places where the source computes with
    them: the double that holds an integer of [0 .. 2^53], and the floor of a
    double ([Math.floor]; 0 stands for NaN and the infinities, which do not
    occur). *)
Definition double (z : Z) : float := PrimFloat.of_uint63 (Uint63.of_Z z).

Definition floor (f : float) : Z :=
  match Prim2SF f with
  | S754_finite false m e =>
      if 0 <=? e then Z.pos m * 2 ^ e else Z.pos m / 2 ^ (- e)
  | S754_finite true m e =>
      if 0 <=? e then - (Z.pos m * 2 ^ e)
      else - ((Z.pos m + 2 ^ (- e) - 1) / 2 ^ (- e))
  | _ => 0
  end.

(** [a * b] as the binary64 multiplication computes it. *)
Definition mulDouble (a b : Z) : Z :=
  floor (PrimFloat.mul (double a) (double b)).

(** [s.slice(-1)] and [s.slice(0, -1)]. *)
Fixpoint sliceLast (s : string) : string :=
  match s with
  | EmptyString => EmptyString
  | String c s' =>
      match s' with
      | EmptyString => String c EmptyString
      | String _ _ => sliceLast s'
      end
  end.

Fixpoint sliceInit (s : string) : string :=
  match s with
  | EmptyString => EmptyString
  | String c s' =>
      match s' with
      | EmptyString => EmptyString
      | String _ _ => String c (sliceInit s')
      end
  end.

(** [arr.includes(x)] on an array of strings. *)
Definition includes (arr : list string) (x : string) : bool :=
  bool_decide (x ∈ arr).

(** [arr[i]] for an integer index: [undefined] outside the array. *)
Definition index {A} (arr : list A) (i : Z) : option A :=
  if i <? 0 then None else arr !! Z.to_nat i.

(** The UTF-16 code units of a string, as [charCodeAt] reads them.  A seed is
    kept as this sequence, so that code units above 255 are covered. *)
Definition codeUnits (s : string) : list Z :=
  (λ a, Z.of_N (Ascii.N_of_ascii a)) <$> String.list_ascii_of_string s.

End JS.

(** ** Cards and the deck *)

Definition SUITS : list string := ["S"; "H"; "D"; "C"]%string.
Definition RANKS : list string :=
  ["A"; "2"; "3"; "4"; "5"; "6"; "7"; "8"; "9"; "10"; "J"; "Q"; "K"]%string.

Definition buildDeck : list string :=
  r ← RANKS; s ← SUITS; [(r +:+ s)%string].

Definition isCardCode (code : string) : bool :=
  let suit := JS.sliceLast code in
  let rank := JS.sliceInit code in
  JS.includes SUITS suit && JS.includes RANKS rank.

(** ** The seeded generator *)

Definition fnv1a32_step (h c : Z) : Z :=
  let h := JS.xor h c in
  JS.mul (JS.ushr h 0) 16777619.

Definition fnv1a32 (str : list Z) : Z :=
  JS.ushr (foldl fnv1a32_step 2166136261 str) 0.

(** [fnv1a32] with the multiplication done by the binary64 arithmetic of
    the kernel instead of [JS.roundDouble]. *)
Definition fnv1a32_double (str : list Z) : Z :=
  JS.ushr (foldl (λ h c, JS.mulDouble (JS.ushr (JS.xor h c) 0) 16777619)
                 2166136261 str) 0.

(** The closure that [mulberry32] returns owns one variable [t]; a call of
    the closure is a function from [t] to the new [t] and the result.  The
    result is [u / 4294967296] for a 32-bit [u]; the model returns [u].
    [t] grows by a constant below [2^31] at each call, so it is an exact
    integer for the first four million calls; a shuffle makes 51. *)
Definition mulberry32 (seed : Z) : Z := JS.ushr seed 0.

Definition rng (t : Z) : Z * Z :=
  let t := t + 1831565813 in
  let r := JS.imul (JS.xor t (JS.ushr t 15)) (JS.or 1 t) in
  let r := JS.xor r (r + JS.imul (JS.xor r (JS.ushr r 7)) (JS.or 61 r)) in
  (t, JS.ushr (JS.xor r (JS.ushr r 14)) 0).

Definition createSeededRng (seed : list Z) (nonce : Z) : Z :=
  let base := fnv1a32 seed in
  let mixed := JS.ushr (JS.xor base (JS.ushr nonce 0)) 0 in
  mulberry32 mixed.

(** ** Fisher-Yates *)

(** [[arr[i], arr[j]] = [arr[j], arr[i]]].  Both indices are inside the
    array wherever the shuffle swaps ([shuffle_index_le]); outside it the
    model leaves the array alone. *)
Definition swap {A} (arr : list A) (i j : nat) : list A :=
  match arr !! i, arr !! j with
  | Some xi, Some xj => <[j := xi]> (<[i := xj]> arr)
  | _, _ => arr
  end.

(** [Math.floor(rng() * (i + 1))] with [rng() = u / 2^32]: the product
    [u * (i + 1)] stays below [2^53] for every array of fewer than [2^21]
    elements, so the double holds [u * (i + 1) / 2^32] exactly. *)
Definition shuffle_index (u : Z) (i : nat) : nat :=
  Z.to_nat ((u * (Z.of_nat i + 1)) / JS.two32).

(** The loop [for (i = n; i > 0; i--)], with the generator's [t] threaded. *)
Fixpoint shuffle_loop {A} (n : nat) (arr : list A) (t : Z) : list A * Z :=
  match n with
  | O => (arr, t)
  | S n' =>
      let '(t', u) := rng t in
      shuffle_loop n' (swap arr n (shuffle_index u n)) t'
  end.

Definition shuffleInPlace {A} (arr : list A) (t : Z) : list A * Z :=
  shuffle_loop (length arr - 1)%nat arr t.

Definition createShuffledDeck (seed : list Z) (nonce : Z) : list string :=
  let t := createSeededRng seed nonce in
  let copy := buildDeck in
  fst (shuffleInPlace copy t).

Global Arguments createShuffledDeck : simpl never.
Global Arguments createSeededRng : simpl never.
Global Arguments rng : simpl never.

(** The FNV-1a hash as the specification words it: start from the offset
    basis, and for each character xor it in and multiply by the prime, every
    step wrapped to 32 bits. *)
Definition fnv1a32_reference (str : list Z) : Z :=
  foldl (λ h c, (Z.lxor h c * 16777619) mod 2 ^ 32) 2166136261 str.

(** ** Scoring *)

(** [Number(rank)] on the unsigned decimal numerals, which is where the
    [Rank] type uses it ("2" to "10").  [None] stands for every other
    string: its value is not followed by the model. *)
Definition digitValue (a : Ascii.ascii) : option Z :=
  let n := Z.of_N (Ascii.N_of_ascii a) in
  if (48 <=? n) && (n <=? 57) then Some (n - 48) else None.

Fixpoint parseDigits (acc : Z) (s : string) : option Z :=
  match s with
  | EmptyString => Some acc
  | String a s' =>
      match digitValue a with
      | Some d => parseDigits (acc * 10 + d) s'
      | None => None
      end
  end.

Definition Number (s : string) : option Z :=
  match s with
  | EmptyString => None
  | String _ _ => parseDigits 0 s
  end.

Definition rankBaseValue (rank : string) : option Z :=
  if String.eqb rank "A" then Some 1
  else if String.eqb rank "J" || String.eqb rank "Q" || String.eqb rank "K"
       then Some 10
  else Number rank.

Record HandTotal := { total : Z; soft : bool }.

(** The [for] loop of [calculateBestTotal]: the sum with every ace as 1,
    and the number of aces. *)
Fixpoint sumRanks (cards : list string) (sum : Z) (aces : nat)
  : option (Z * nat) :=
  match cards with
  | [] => Some (sum, aces)
  | code :: rest =>
      let rank := JS.sliceInit code in
      if String.eqb rank "A" then sumRanks rest (sum + 1) (S aces)
      else match rankBaseValue rank with
           | Some v => sumRanks rest (sum + v) aces
           | None => None
           end
  end.

(** The [while (aces > 0 && sum + 10 <= 21)] loop. *)
Fixpoint upgradeAces (aces : nat) (sum : Z) (soft : bool) : HandTotal :=
  match aces with
  | O => {| total := sum; soft := soft |}
  | S aces' =>
      if sum + 10 <=? 21 then upgradeAces aces' (sum + 10) true
      else {| total := sum; soft := soft |}
  end.

Definition calculateBestTotal (cards : list string) : option HandTotal :=
  match sumRanks cards 0 0 with
  | Some (sum, aces) => Some (upgradeAces aces sum false)
  | None => None
  end.

(** [Math.floor((total / 21) * 100)] is reached for [0 < total < 21] only.
    There [total * 100 / 21] is at least [1/21] away from every integer, far
    more than the two roundings of the double arithmetic can move it, so the
    floor is the integer quotient. *)
Definition calculatePoints (total : Z) : Z :=
  if 21 <? total then 0
  else if total =? 21 then 100
  else if 0 <? total then (total * 100) / 21
  else 0.

(** [calculatePoints] with the quotient and the product computed in
    binary64, as the source writes them. *)
Definition calculatePoints_double (total : Z) : Z :=
  if 21 <? total then 0
  else if total =? 21 then 100
  else if 0 <? total
       then JS.floor (PrimFloat.mul
                        (PrimFloat.div (JS.double total) (JS.double 21))
                        (JS.double 100))
  else 0.

Definition isBust (total : Z) : bool := 21 <? total.

Definition updateBalance (balance points : Z) : Z :=
  if 0 <? points then balance + points else balance.

(** ** Round states *)

Inductive RoundState := Idle | Playing | Bust | Finished.

Inductive PrismaRoundState := IDLE | PLAYING | BUST | FINISHED.

Global Instance RoundState_eq_dec : EqDecision RoundState.
Proof. solve_decision. Defined.

Global Instance PrismaRoundState_eq_dec : EqDecision PrismaRoundState.
Proof. solve_decision. Defined.

Definition toPrismaRoundState (s : RoundState) : PrismaRoundState :=
  match s with
  | Idle => IDLE
  | Playing => PLAYING
  | Bust => BUST
  | Finished => FINISHED
  end.

Definition fromPrismaRoundState (s : PrismaRoundState) : RoundState :=
  match s with
  | IDLE => Idle
  | PLAYING => Playing
  | BUST => Bust
  | FINISHED => Finished
  end.

Inductive Action := StartAction | HitAction | StandAction.

Definition canPerformAction (state : RoundState) (action : Action) : bool :=
  match action with
  | StartAction =>
      bool_decide (state = Idle) || bool_decide (state = Finished)
      || bool_decide (state = Bust)
  | HitAction => bool_decide (state = Playing)
  | StandAction => bool_decide (state = Playing)
  end.

(** ** The engine's own round helpers *)

Inductive LogAction := LogStart | LogHit | LogStand | LogBust.

Record RoundLogEntry := {
  entry_roundId : string;
  entry_action : LogAction;
  entry_card : option string;
  entry_totalAfter : option Z;
  entry_nonce : option Z;
  entry_timestamp : Z
}.

Definition drawCard (deck : list string) : option (string * list string) :=
  match deck with
  | [] => None
  | card :: rest => Some (card, rest)
  end.

Record InitParams := {
  param_seed : list Z;
  param_nonce : option Z;
  param_dealOne : bool
}.

Record InitRound := {
  init_roundId : string;
  init_state : RoundState;
  init_seed : list Z;
  init_nonce : Z;
  init_hand : list string;
  init_total : Z;
  init_deckLeft : list string;
  init_logs : list RoundLogEntry
}.

(** [generateRoundId()] and [Date.now()] are inputs: [roundId] and [now].
    [None] is a thrown exception. *)
Definition initRound (roundId : string) (now : Z) (params : InitParams)
  : option InitRound :=
  let nonce := default 0 (param_nonce params) in
  let deck := createShuffledDeck (param_seed params) nonce in
  let logs := [ {| entry_roundId := roundId; entry_action := LogStart;
                   entry_card := None; entry_totalAfter := None;
                   entry_nonce := Some nonce; entry_timestamp := now |} ] in
  '(deck, hand, logs) ←
    (if param_dealOne params then
       '(card, rest) ← drawCard deck;
       t ← calculateBestTotal [card];
       Some (rest, [card],
             logs ++ [ {| entry_roundId := roundId; entry_action := LogHit;
                          entry_card := Some card;
                          entry_totalAfter := Some (total t);
                          entry_nonce := Some (nonce + 1);
                          entry_timestamp := now |} ])
     else Some (deck, [], logs));
  t ← calculateBestTotal hand;
  Some {| init_roundId := roundId;
          init_state := Playing;
          init_seed := param_seed params;
          init_nonce := if param_dealOne params then nonce + 1 else nonce;
          init_hand := hand;
          init_total := total t;
          init_deckLeft := deck;
          init_logs := logs |}.

Global Arguments initRound : simpl never.

(** ** The database

    The three tables the handlers use.  A round row is stored under its
    primary key, so [round.id] is the key the row was found under; a wallet
    row is stored under [userId], the table's unique index. *)

Module GameRound.
Record t := {
  userId : string;
  state : PrismaRoundState;
  seed : list Z;
  nonce : Z;
  hand : list string;
  total : Z;
  points : Z;
  finishedAt : option Z;
  createdAt : Z;
  updatedAt : Z;
  gameWalletId : option string
}.

(** The [data] of an [update]: for each column, the value the update names
    for it, or [None] when the update does not name the column. *)
Record data := {
  set_userId : option string;
  set_state : option PrismaRoundState;
  set_seed : option (list Z);
  set_nonce : option Z;
  set_hand : option (list string);
  set_total : option Z;
  set_points : option Z;
  set_finishedAt : option (option Z);
  set_createdAt : option Z;
  set_updatedAt : option Z;
  set_gameWalletId : option (option string)
}.

Definition apply (d : data) (r : t) : t :=
  {| userId := default (userId r) (set_userId d);
     state := default (state r) (set_state d);
     seed := default (seed r) (set_seed d);
     nonce := default (nonce r) (set_nonce d);
     hand := default (hand r) (set_hand d);
     total := default (total r) (set_total d);
     points := default (points r) (set_points d);
     finishedAt := default (finishedAt r) (set_finishedAt d);
     createdAt := default (createdAt r) (set_createdAt d);
     updatedAt := default (updatedAt r) (set_updatedAt d);
     gameWalletId := default (gameWalletId r) (set_gameWalletId d) |}.

(** The update names neither the user, the seed, the creation time nor the
    wallet link. *)
Definition keepsIdentity (d : data) : Prop :=
  set_userId d = None ∧ set_seed d = None
  ∧ set_createdAt d = None ∧ set_gameWalletId d = None.

(** Nor does it name the nonce or the hand. *)
Definition keepsHand (d : data) : Prop :=
  keepsIdentity d ∧ set_nonce d = None ∧ set_hand d = None.
End GameRound.

Module GameWallet.
Record t := {
  id : string;
  balance : Z;
  createdAt : Z;
  updatedAt : Z
}.

(** The row after [balance: { increment: points }, updatedAt: now]. *)
Definition credit (w : t) (points now : Z) : t :=
  {| id := id w;
     balance := balance w + points;
     createdAt := createdAt w;
     updatedAt := now |}.
End GameWallet.

Module RoundLog.
Record t := {
  id : string;
  roundId : string;
  action : LogAction;
  card : option string;
  nonce : option Z;
  totalAfter : option Z;
  createdAt : Z
}.
End RoundLog.

Record DB := {
  gameRound : gmap string GameRound.t;
  gameWallet : gmap string GameWallet.t;
  roundLog : list RoundLog.t
}.

Definition withRounds (db : DB) (m : gmap string GameRound.t) : DB :=
  {| gameRound := m; gameWallet := gameWallet db; roundLog := roundLog db |}.

Definition withWallets (db : DB) (m : gmap string GameWallet.t) : DB :=
  {| gameRound := gameRound db; gameWallet := m; roundLog := roundLog db |}.

Definition withLogs (db : DB) (l : list RoundLog.t) : DB :=
  {| gameRound := gameRound db; gameWallet := gameWallet db; roundLog := l |}.

(** ** Handlers as programs over the database

    A handler is a sequence of awaited database calls.  Each call is one
    atomic action on the database; [None] is a call that throws. *)

Definition Query (B : Type) : Type := DB → option (DB * B).

Inductive Prog (R : Type) : Type :=
| Return (r : R)
| Throw
| Await {B : Type} (q : Query B) (k : B → Prog R).

Arguments Return {R} r.
Arguments Throw {R}.
Arguments Await {R B} q k.

Notation "'let!' x := q 'in' k" := (Await q (λ x, k))
  (at level 10, x pattern, q at level 100, k at level 200).

(** A handler run alone, from start to end.  [None] is an exception that
    reached the handler's [catch]; what it had written stays written. *)
Fixpoint run {R} (p : Prog R) (db : DB) : DB * option R :=
  match p with
  | Return r => (db, Some r)
  | Throw => (db, None)
  | Await q k =>
      match q db with
      | Some (db', b) => run (k b) db'
      | None => (db, None)
      end
  end.

(** [prisma.$transaction(async tx => ...)]: the body runs as one action, and
    nothing is written when it throws. *)
Definition transaction {B} (body : Prog B) : Query B :=
  λ db, match run body db with
        | (db', Some b) => Some (db', b)
        | (_, None) => None
        end.

(** One awaited call of a handler that runs among others. *)
Definition step {R} (p : Prog R) (db : DB) : DB * Prog R :=
  match p with
  | Return r => (db, Return r)
  | Throw => (db, Throw)
  | Await q k =>
      match q db with
      | Some (db', b) => (db', k b)
      | None => (db, Throw)
      end
  end.

(** Two handlers side by side: the schedule says whose call comes next. *)
Fixpoint interleave {R} (sched : list bool) (p1 p2 : Prog R) (db : DB)
  : DB * Prog R * Prog R :=
  match sched with
  | [] => (db, p1, p2)
  | true :: sched' =>
      let '(db', p1') := step p1 db in interleave sched' p1' p2 db'
  | false :: sched' =>
      let '(db', p2') := step p2 db in interleave sched' p1 p2' db'
  end.

(** ** Prisma calls *)

Module Prisma.

Definition gameRound_findFirst (id userId : string)
  : Query (option GameRound.t) :=
  λ db, Some (db, r ← gameRound db !! id;
                  if bool_decide (GameRound.userId r = userId)
                  then Some r else None).

Definition gameRound_findFirstPlaying (userId : string)
  : Query (option (string * GameRound.t)) :=
  λ db, Some (db, head (filter
                    (λ kr, GameRound.userId kr.2 = userId
                           ∧ GameRound.state kr.2 = PLAYING)
                    (map_to_list (gameRound db)))).

Definition gameRound_findUnique (id : string) : Query (option GameRound.t) :=
  λ db, Some (db, gameRound db !! id).

Definition gameRound_create (id : string) (r : GameRound.t)
  : Query GameRound.t :=
  λ db, match gameRound db !! id with
        | Some _ => None
        | None => Some (withRounds db (<[id := r]> (gameRound db)), r)
        end.

Definition gameRound_update (id : string) (d : GameRound.data)
  : Query GameRound.t :=
  λ db, match gameRound db !! id with
        | Some r =>
            let r' := GameRound.apply d r in
            Some (withRounds db (<[id := r']> (gameRound db)), r')
        | None => None
        end.

(** [updateMany] with [where: { id, userId, state }]: the count of rows
    written. *)
Definition gameRound_updateMany (id userId : string)
    (state : PrismaRoundState) (d : GameRound.data) : Query Z :=
  λ db, match gameRound db !! id with
        | Some r =>
            if bool_decide (GameRound.userId r = userId)
               && bool_decide (GameRound.state r = state)
            then Some (withRounds db
                         (<[id := GameRound.apply d r]> (gameRound db)), 1)
            else Some (db, 0)
        | None => Some (db, 0)
        end.

Definition gameWallet_findUnique (userId : string)
  : Query (option GameWallet.t) :=
  λ db, Some (db, gameWallet db !! userId).

Definition gameWallet_create (userId : string) (w : GameWallet.t)
  : Query GameWallet.t :=
  λ db, match gameWallet db !! userId with
        | Some _ => None
        | None => Some (withWallets db (<[userId := w]> (gameWallet db)), w)
        end.

(** [update] with [where: { id }] and [balance: { increment }], on the
    wallet row the handler holds, which it read under [userId]. *)
Definition gameWallet_increment (userId id : string) (points now : Z)
  : Query GameWallet.t :=
  λ db, match gameWallet db !! userId with
        | Some w =>
            if bool_decide (GameWallet.id w = id) then
              let w' := GameWallet.credit w points now in
              Some (withWallets db (<[userId := w']> (gameWallet db)), w')
            else None
        | None => None
        end.

Definition roundLog_create (l : RoundLog.t) : Query () :=
  λ db, Some (withLogs db (roundLog db ++ [l]), ()).

Definition roundLog_createMany (ls : list RoundLog.t) : Query () :=
  λ db, Some (withLogs db (roundLog db ++ ls), ()).

End Prisma.

(** ** What a handler answers *)

Record ApiState := {
  api_roundId : string;
  api_state : RoundState;
  api_seed : list Z;
  api_nonce : Z;
  api_hand : list string;
  api_total : Z;
  api_pointsLastRound : Z;
  api_balance : Z
}.

Inductive Body :=
| ErrorBody (error : string)
| ErrorDetailsBody (error details : string)
| StateBody (s : ApiState)
| ErrorCurrentBody (error : string) (current : ApiState).

Record Response := { status : Z; body : Body }.

Definition json (b : Body) (status : Z) : Response :=
  {| status := status; body := b |}.

(** [None] is the exception of [assertCardCodes]. *)
Definition assertCardCodes (arr : list string) : option (list string) :=
  if forallb isCardCode arr then Some arr else None.

Definition toApiState (id : string) (round : GameRound.t) (balance : Z)
  : option ApiState :=
  let uiState := fromPrismaRoundState (GameRound.state round) in
  hand ← assertCardCodes (GameRound.hand round);
  Some {| api_roundId := id;
          api_state := uiState;
          api_seed := GameRound.seed round;
          api_nonce := GameRound.nonce round;
          api_hand := hand;
          api_total := GameRound.total round;
          api_pointsLastRound :=
            if bool_decide (uiState = Finished) || bool_decide (uiState = Bust)
            then GameRound.points round else 0;
          api_balance := balance |}.

(** [wallet?.balance ?? 0] *)
Definition balanceOr0 (wallet : option GameWallet.t) : Z :=
  default 0 (GameWallet.balance <$> wallet).

(** A response built from [toApiState], which may throw. *)
Definition respond (s : option ApiState) (f : ApiState → Response)
  : Prog Response :=
  match s with
  | Some s => Return (f s)
  | None => Throw
  end.

Definition internalError : Response :=
  json (ErrorBody "Internal Server Error") 500.

(** The [catch] of every handler. *)
Definition POST (p : Prog Response) (db : DB) : DB * Response :=
  match run p db with
  | (db', Some r) => (db', r)
  | (db', None) => (db', internalError)
  end.

(** ** POST /api/game/hit *)

Record HitBody := {
  hit_roundId : option string;
  hit_expectedNonce : option Z
}.

(** [!nextCard] on a string or [undefined]. *)
Definition falsy (c : option string) : bool :=
  match c with
  | None => true
  | Some s => bool_decide (s = EmptyString)
  end.

(** The [for] loops that look for a card not yet in the hand: from [i]
    upwards, stopping at the first index whose entry is not in [already].
    An index below 0 reads [undefined], which no set of strings holds, so the
    loop stops there at once with [undefined]. *)
Definition scanFrom (baseDeck : list string) (already : gset string) (i : Z)
  : option string :=
  if i <? 0 then None
  else snd <$> list_find (λ c, c ∉ already) (drop (Z.to_nat i) baseDeck).

Definition nextCardOf (baseDeck : list string) (drawsSoFar : Z)
    (hand : list string) : option string :=
  let already : gset string := list_to_set hand in
  let nextCard := JS.index baseDeck drawsSoFar in
  let nextCard :=
    if falsy nextCard || bool_decide (default EmptyString nextCard ∈ already)
    then
      let nextCard := scanFrom baseDeck already drawsSoFar in
      if falsy nextCard then scanFrom baseDeck already 0 else nextCard
    else nextCard in
  if falsy nextCard then None else nextCard.

(** [now] is [new Date()], [uuid] is [randomUUID()]. *)
Record HitEnv := { hit_now : Z; hit_uuid : string }.

(** The [data] of the round update and the log row of a hit that draws
    [nextCard] and reaches [total]. *)
Definition hitData (env : HitEnv) (round : GameRound.t) (nextCard : string)
    (total : Z) : GameRound.data :=
  let didBust := isBust total in
  {| GameRound.set_hand := Some (GameRound.hand round ++ [nextCard]);
     GameRound.set_total := Some total;
     GameRound.set_nonce := Some (GameRound.nonce round + 1);
     GameRound.set_state :=
       Some (if didBust then toPrismaRoundState Bust
             else toPrismaRoundState Playing);
     GameRound.set_points :=
       Some (if didBust then 0 else GameRound.points round);
     GameRound.set_finishedAt :=
       Some (if didBust then Some (hit_now env) else None);
     GameRound.set_updatedAt := Some (hit_now env);
     (* not named by the update *)
     GameRound.set_userId := None;
     GameRound.set_seed := None;
     GameRound.set_createdAt := None;
     GameRound.set_gameWalletId := None |}.

Definition hitLog (env : HitEnv) (roundId : string) (round : GameRound.t)
    (nextCard : string) (total : Z) : RoundLog.t :=
  {| RoundLog.id := "log_" +:+ hit_uuid env;
     RoundLog.roundId := roundId;
     RoundLog.action := if isBust total then LogBust else LogHit;
     RoundLog.card := Some nextCard;
     RoundLog.nonce := Some (GameRound.nonce round + 1);
     RoundLog.totalAfter := Some total;
     RoundLog.createdAt := hit_now env |}.

(** The handler once it holds the round. *)
Definition hitWith (env : HitEnv) (roundId userId : string)
    (expectedNonce : option Z) (round : GameRound.t) : Prog Response :=
  if bool_decide (GameRound.state round ≠ PLAYING) then
    let! wallet := Prisma.gameWallet_findUnique userId in
    respond (toApiState roundId round (balanceOr0 wallet))
            (λ s, json (StateBody s) 409)
  else if bool_decide (is_Some expectedNonce
                       ∧ expectedNonce ≠ Some (GameRound.nonce round))
  then
    let! wallet := Prisma.gameWallet_findUnique userId in
    respond (toApiState roundId round (balanceOr0 wallet))
            (λ s, json (ErrorCurrentBody
                          "Round changed since client last sync" s) 409)
  else
    let baseDeck := createShuffledDeck (GameRound.seed round) 0 in
    let drawsSoFar := GameRound.nonce round in
    match nextCardOf baseDeck drawsSoFar (GameRound.hand round) with
    | None =>
        Return (json (ErrorBody "Deck exhausted. Start a new round.") 410)
    | Some nextCard =>
    let newHand := GameRound.hand round ++ [nextCard] in
    match calculateBestTotal newHand with
    | None =>
        (* a stored card whose rank is no [Rank]: the total is not a number
           that the model follows; the request ends in the handler's catch,
           at the latest when [toApiState] asserts the new hand *)
        Throw
    | Some t =>
    let! updated :=
      Prisma.gameRound_update roundId (hitData env round nextCard (total t)) in
    let! _ :=
      Prisma.roundLog_create (hitLog env roundId round nextCard (total t)) in
    let! wallet := Prisma.gameWallet_findUnique userId in
    respond (toApiState roundId updated (balanceOr0 wallet))
            (λ s, json (StateBody s) 200)
    end end.

Definition hit (env : HitEnv) (session : option string)
    (body : option HitBody) : Prog Response :=
  match session with
  | None => Return (json (ErrorBody "Unauthorized") 401)
  | Some userId =>
  match body with
  | None =>
      Return (json (ErrorDetailsBody "Invalid JSON body" "Expected roundId") 400)
  | Some body =>
  match hit_roundId body with
  | None | Some EmptyString =>
      Return (json (ErrorBody "roundId is required") 400)
  | Some roundId =>
  let! round := Prisma.gameRound_findFirst roundId userId in
  match round with
  | None => Return (json (ErrorBody "Round not found") 404)
  | Some round => hitWith env roundId userId (hit_expectedNonce body) round
  end end end end.

(** ** POST /api/game/stand *)

Record StandBody := { stand_roundId : option string }.

(** The two [new Date()] and the two [randomUUID()] of the handler. *)
Record StandEnv := {
  stand_walletNow : Z;
  stand_walletUuid : string;
  stand_now : Z;
  stand_logUuid : string
}.

Record StandResult := {
  finalized : bool;
  result_round : option GameRound.t;
  result_wallet : GameWallet.t
}.

(** The [data] of the finalizing update and the log row of a stand. *)
Definition standData (env : StandEnv) (total points : Z) : GameRound.data :=
  {| GameRound.set_state := Some (toPrismaRoundState Finished);
     GameRound.set_total := Some total;
     GameRound.set_points := Some points;
     GameRound.set_finishedAt := Some (Some (stand_now env));
     GameRound.set_updatedAt := Some (stand_now env);
     (* not named by the update *)
     GameRound.set_userId := None;
     GameRound.set_seed := None;
     GameRound.set_nonce := None;
     GameRound.set_hand := None;
     GameRound.set_createdAt := None;
     GameRound.set_gameWalletId := None |}.

Definition standLog (env : StandEnv) (roundId : string) (round : GameRound.t)
    (total : Z) : RoundLog.t :=
  {| RoundLog.id := "log_" +:+ stand_logUuid env;
     RoundLog.roundId := roundId;
     RoundLog.action := LogStand;
     RoundLog.card := None;
     RoundLog.nonce := Some (GameRound.nonce round);
     RoundLog.totalAfter := Some total;
     RoundLog.createdAt := stand_now env |}.

Definition standTransaction (env : StandEnv) (roundId userId : string)
    (round : GameRound.t) (wallet : GameWallet.t) (total points : Z)
  : Prog StandResult :=
  let! upd :=
    Prisma.gameRound_updateMany roundId userId PLAYING
      (standData env total points) in
  if upd =? 0 then
    let! currentRound := Prisma.gameRound_findUnique roundId in
    let! currentWallet := Prisma.gameWallet_findUnique userId in
    Return {| finalized := false;
              result_round := currentRound;
              result_wallet := default wallet currentWallet |}
  else
    let! _ := Prisma.roundLog_create (standLog env roundId round total) in
    let finish (updatedWallet : GameWallet.t) : Prog StandResult :=
      let! finalizedRound := Prisma.gameRound_findUnique roundId in
      Return {| finalized := true;
                result_round := finalizedRound;
                result_wallet := updatedWallet |} in
    if 0 <? points then
      let! updatedWallet :=
        Prisma.gameWallet_increment userId (GameWallet.id wallet) points
                                    (stand_now env) in
      finish updatedWallet
    else finish wallet.

(** The handler once it holds the round and the wallet. *)
Definition standWith (env : StandEnv) (roundId userId : string)
    (round : GameRound.t) (wallet : GameWallet.t) : Prog Response :=
  if bool_decide (GameRound.state round ≠ PLAYING) then
    respond (toApiState roundId round (GameWallet.balance wallet))
            (λ s, json (StateBody s) 409)
  else
    match hand ← assertCardCodes (GameRound.hand round);
          calculateBestTotal hand with
    | None => Throw
    | Some t =>
    let total := total t in
    let points := calculatePoints total in
    let! result :=
      transaction (standTransaction env roundId userId round wallet
                                    total points) in
    match result_round result with
    | None => Throw
    | Some r =>
        respond (toApiState roundId r (GameWallet.balance (result_wallet result)))
                (λ s, json (StateBody s) (if finalized result then 200 else 409))
    end
    end.

(** The handler once it holds the round: it makes sure of the wallet. *)
Definition standLoaded (env : StandEnv) (roundId userId : string)
    (round : GameRound.t) : Prog Response :=
  let! wallet := Prisma.gameWallet_findUnique userId in
  match wallet with
  | Some wallet => standWith env roundId userId round wallet
  | None =>
      let now := stand_walletNow env in
      let! wallet :=
        Prisma.gameWallet_create userId
          {| GameWallet.id := "wal_" +:+ stand_walletUuid env;
             GameWallet.balance := 0;
             GameWallet.createdAt := now;
             GameWallet.updatedAt := now |} in
      standWith env roundId userId round wallet
  end.

Definition stand (env : StandEnv) (session : option string)
    (body : option StandBody) : Prog Response :=
  match session with
  | None => Return (json (ErrorBody "Unauthorized") 401)
  | Some userId =>
  match body with
  | None =>
      Return (json (ErrorDetailsBody "Invalid JSON body" "Expected roundId") 400)
  | Some body =>
  match stand_roundId body with
  | None | Some EmptyString =>
      Return (json (ErrorBody "roundId is required") 400)
  | Some roundId =>
  let! round := Prisma.gameRound_findFirst roundId userId in
  match round with
  | None => Return (json (ErrorBody "Round not found") 404)
  | Some round => standLoaded env roundId userId round
  end end end end.

(** ** POST /api/game/start *)

Record StartBody := { start_dealOne : option bool }.

(** The clock, the identifiers and the ISO date the handler draws. *)
Record StartEnv := {
  start_walletNow : Z;
  start_walletUuid : string;
  start_isoDate : string;
  start_seedUuid : string;
  start_roundId : string;
  start_initNow : Z;
  start_now : Z;
  start_logUuid : nat → string
}.

Definition deriveSeed (parts : list string) : list Z :=
  JS.codeUnits (String.concat "|" parts).

Global Arguments deriveSeed : simpl never.

Definition logRow (roundId : string) (uuid : string) (l : RoundLogEntry)
  : RoundLog.t :=
  {| RoundLog.id := "log_" +:+ uuid;
     RoundLog.roundId := roundId;
     RoundLog.action := entry_action l;
     RoundLog.card := entry_card l;
     RoundLog.nonce := entry_nonce l;
     RoundLog.totalAfter := entry_totalAfter l;
     RoundLog.createdAt := entry_timestamp l |}.

Definition startWith (env : StartEnv) (userId : string) (dealOne : bool)
    (wallet : GameWallet.t) : Prog Response :=
  let! existingPlaying := Prisma.gameRound_findFirstPlaying userId in
  match existingPlaying with
  | Some (id, existing) =>
      respond (toApiState id existing (GameWallet.balance wallet))
              (λ s, json (StateBody s) 200)
  | None =>
  let seed :=
    deriveSeed [userId; start_isoDate env; start_seedUuid env] in
  match initRound (start_roundId env) (start_initNow env)
          {| param_seed := seed; param_nonce := None;
             param_dealOne := dealOne |} with
  | None => Throw
  | Some started =>
  let now := start_now env in
  let! createdRound :=
    Prisma.gameRound_create (init_roundId started)
      {| GameRound.userId := userId;
         GameRound.state := toPrismaRoundState Playing;
         GameRound.seed := init_seed started;
         GameRound.nonce := init_nonce started;
         GameRound.hand := init_hand started;
         GameRound.total := init_total started;
         GameRound.points := 0;
         GameRound.finishedAt := None;
         GameRound.createdAt := now;
         GameRound.updatedAt := now;
         GameRound.gameWalletId := Some (GameWallet.id wallet) |} in
  let! _ :=
    Prisma.roundLog_createMany
      (imap (λ i l, logRow (init_roundId started) (start_logUuid env i) l)
            (init_logs started)) in
  respond (toApiState (init_roundId started) createdRound
                      (GameWallet.balance wallet))
          (λ s, json (StateBody s) 200)
  end end.

Definition start (env : StartEnv) (session : option string)
    (body : option StartBody) : Prog Response :=
  match session with
  | None => Return (json (ErrorBody "Unauthorized") 401)
  | Some userId =>
  let dealOne := default true (body ≫= start_dealOne) in
  let! wallet := Prisma.gameWallet_findUnique userId in
  match wallet with
  | Some wallet => startWith env userId dealOne wallet
  | None =>
      let now := start_walletNow env in
      let! wallet :=
        Prisma.gameWallet_create userId
          {| GameWallet.id := "wal_" +:+ start_walletUuid env;
             GameWallet.balance := 0;
             GameWallet.createdAt := now;
             GameWallet.updatedAt := now |} in
      startWith env userId dealOne wallet
  end end.

(** ** Totals that a hand can be counted as

    The specification's reading of a hand: a face card counts 10, a numeral
    its face value, and each ace 1 or 11. *)

Definition rankValues : list (string * list Z) :=
  [("A", [1; 11]); ("2", [2]); ("3", [3]); ("4", [4]); ("5", [5]);
   ("6", [6]); ("7", [7]); ("8", [8]); ("9", [9]); ("10", [10]);
   ("J", [10]); ("Q", [10]); ("K", [10])]%string.

Fixpoint valuesOf (rank : string) (table : list (string * list Z))
  : list Z :=
  match table with
  | [] => []
  | (r, vs) :: table' => if String.eqb rank r then vs else valuesOf rank table'
  end.

Definition cardValues (code : string) : list Z :=
  valuesOf (JS.sliceInit code) rankValues.

Inductive Attains : list string → Z → Prop :=
| Attains_nil : Attains [] 0
| Attains_cons code cards v s :
    v ∈ cardValues code → Attains cards s → Attains (code :: cards) (v + s).

(** ** The first unused card

    [c] is the first card of the deck at or after position [i] that the hand
    does not hold. *)
Definition firstUnusedFrom (deck hand : list string) (i : nat) (c : string)
  : Prop :=
  ∃ k, (i ≤ k)%nat ∧ deck !! k = Some c ∧ (c ∉ hand)
       ∧ ∀ j c', (i ≤ j)%nat → (j < k)%nat → deck !! j = Some c' → c' ∈ hand.

(** What a hit that deals [nextCard] and reaches [total] leaves in the
    database. *)
Definition hitDB (env : HitEnv) (roundId : string) (round : GameRound.t)
    (nextCard : string) (total : Z) (db : DB) : DB :=
  {| gameRound :=
       <[roundId := GameRound.apply (hitData env round nextCard total) round]>
         (gameRound db);
     gameWallet := gameWallet db;
     roundLog := roundLog db ++ [hitLog env roundId round nextCard total] |}.

(** ** Rounds in step with their deck

    The hand is the first cards of the canonical shuffle of the seed, and
    the nonce counts them. *)
Definition consistent (r : GameRound.t) : Prop :=
  GameRound.nonce r = Z.of_nat (length (GameRound.hand r))
  ∧ GameRound.hand r
    = take (length (GameRound.hand r))
           (createShuffledDeck (GameRound.seed r) 0).

(** The snapshot of a round whose hand is made of card codes. *)
Definition snapshot (id : string) (round : GameRound.t) (balance : Z)
  : ApiState :=
  {| api_roundId := id;
     api_state := fromPrismaRoundState (GameRound.state round);
     api_seed := GameRound.seed round;
     api_nonce := GameRound.nonce round;
     api_hand := GameRound.hand round;
     api_total := GameRound.total round;
     api_pointsLastRound :=
       match GameRound.state round with
       | FINISHED | BUST => GameRound.points round
       | _ => 0
       end;
     api_balance := balance |}.

(** What a stand that finalizes leaves in the database: [round] is the row
    the handler read, [stored] the row it finds at commit, [w] the wallet. *)
Definition standDB (env : StandEnv) (roundId userId : string)
    (round stored : GameRound.t) (w : GameWallet.t) (total points : Z)
    (db : DB) : DB :=
  {| gameRound :=
       <[roundId := GameRound.apply (standData env total points) stored]>
         (gameRound db);
     gameWallet :=
       if 0 <? points
       then <[userId := GameWallet.credit w points (stand_now env)]>
              (gameWallet db)
       else gameWallet db;
     roundLog := roundLog db ++ [standLog env roundId round total] |}.

(** ** Relations that every call of a handler keeps

    [Respects R p]: every database call that [p] can make takes a database
    to one related to it by [R]. *)
Definition preserves (R : relation DB) {B} (q : Query B) : Prop :=
  ∀ db db' b, q db = Some (db', b) → R db db'.

Inductive Respects (R : relation DB) {A} : Prog A → Prop :=
| Respects_Return r : Respects R (Return r)
| Respects_Throw : Respects R Throw
| Respects_Await {B} (q : Query B) k :
    preserves R q → (∀ b, Respects R (k b)) → Respects R (Await q k).

(** No balance goes down. *)
Definition balancesGrow (db db' : DB) : Prop :=
  ∀ userId,
    balanceOr0 (gameWallet db !! userId)
    ≤ balanceOr0 (gameWallet db' !! userId).

(** Every stored round is still stored, with the columns that no update
    names unchanged. *)
Definition roundsKeepIdentity (db db' : DB) : Prop :=
  ∀ id r, gameRound db !! id = Some r →
    ∃ r', gameRound db' !! id = Some r'
          ∧ GameRound.userId r' = GameRound.userId r
          ∧ GameRound.seed r' = GameRound.seed r
          ∧ GameRound.createdAt r' = GameRound.createdAt r
          ∧ GameRound.gameWalletId r' = GameRound.gameWalletId r.

(** As above, and the nonce and the hand are unchanged too. *)
Definition roundsKeepHand (db db' : DB) : Prop :=
  ∀ id r, gameRound db !! id = Some r →
    ∃ r', gameRound db' !! id = Some r'
          ∧ GameRound.userId r' = GameRound.userId r
          ∧ GameRound.seed r' = GameRound.seed r
          ∧ GameRound.nonce r' = GameRound.nonce r
          ∧ GameRound.hand r' = GameRound.hand r
          ∧ GameRound.createdAt r' = GameRound.createdAt r
          ∧ GameRound.gameWalletId r' = GameRound.gameWalletId r.

(** ** Two stands on one round

    Two requests to stand on the round [roundId], stored as [round0] and
    playing, of a user whose wallet is [wallet0] in the database [db0]; [t0]
    is the best total of the hand. *)

(** How many calls of a schedule belong to the first ([true]) or the second
    ([false]) handler. *)
Definition steps (who : bool) (sched : list bool) : nat :=
  length (filter (λ b, b = who) sched).

Section Race.
Context (roundId userId : string) (round0 : GameRound.t).
Context (wallet0 : GameWallet.t) (db0 : DB) (t0 : HandTotal).

Definition standRequest (env : StandEnv) : Prog Response :=
  stand env (Some userId) (Some {| stand_roundId := Some roundId |}).

Definition racePoints : Z := calculatePoints (total t0).

(** The round, the wallet and the database once [winner] has committed. *)
Definition finalRound (winner : StandEnv) : GameRound.t :=
  GameRound.apply (standData winner (total t0) racePoints) round0.

Definition finalWallet (winner : StandEnv) : GameWallet.t :=
  if 0 <? racePoints
  then GameWallet.credit wallet0 racePoints (stand_now winner)
  else wallet0.

Definition finalDB (winner : StandEnv) : DB :=
  standDB winner roundId userId round0 round0 wallet0 (total t0) racePoints
          db0.

(** The answer to both requests is the final snapshot; the status tells the
    winner (200) from the other (409). *)
Definition raceAnswer (winner : StandEnv) (status : Z) : Response :=
  json (StateBody
          (snapshot roundId (finalRound winner)
             (updateBalance (GameWallet.balance wallet0) racePoints)))
       status.

(** Where a handler can be while nobody has committed, with a bound on the
    calls it still has to make. *)
Inductive Pending (env : StandEnv) : nat → Prog Response → Prop :=
| Pending_request n :
    (3 ≤ n)%nat → Pending env n (standRequest env)
| Pending_loaded n :
    (2 ≤ n)%nat → Pending env n (standLoaded env roundId userId round0)
| Pending_with n :
    (1 ≤ n)%nat →
    Pending env n (standWith env roundId userId round0 wallet0).

(** Where the other handler can be once [winner] has committed. *)
Inductive Late (winner env : StandEnv) : nat → Prog Response → Prop :=
| Late_request n :
    (3 ≤ n)%nat → Late winner env n (standRequest env)
| Late_loaded_before n :
    (2 ≤ n)%nat → Late winner env n (standLoaded env roundId userId round0)
| Late_loaded_after n :
    (2 ≤ n)%nat →
    Late winner env n (standLoaded env roundId userId (finalRound winner))
| Late_with n w :
    (1 ≤ n)%nat →
    Late winner env n (standWith env roundId userId round0 w)
| Late_done n : Late winner env n (Return (raceAnswer winner 409)).

Inductive RaceInv (env1 env2 : StandEnv)
  : nat → nat → DB * Prog Response * Prog Response → Prop :=
| Race_open n1 n2 p1 p2 :
    Pending env1 n1 p1 → Pending env2 n2 p2 →
    RaceInv env1 env2 n1 n2 (db0, p1, p2)
| Race_won1 n1 n2 p2 :
    Late env1 env2 n2 p2 →
    RaceInv env1 env2 n1 n2 (finalDB env1, Return (raceAnswer env1 200), p2)
| Race_won2 n1 n2 p1 :
    Late env2 env1 n1 p1 →
    RaceInv env1 env2 n1 n2 (finalDB env2, p1, Return (raceAnswer env2 200)).

End Race.

(** ** The databases that the handlers can produce *)

Inductive Request :=
| RequestStart (env : StartEnv) (session : option string)
    (body : option StartBody)
| RequestHit (env : HitEnv) (session : option string) (body : option HitBody)
| RequestStand (env : StandEnv) (session : option string)
    (body : option StandBody).

Definition handler (req : Request) : Prog Response :=
  match req with
  | RequestStart env session body => start env session body
  | RequestHit env session body => hit env session body
  | RequestStand env session body => stand env session body
  end.

Definition emptyDB : DB :=
  {| gameRound := ∅; gameWallet := ∅; roundLog := [] |}.

(** Reached from the empty database by requests served one after the
    other. *)
Inductive Reachable : DB → Prop :=
| Reachable_empty : Reachable emptyDB
| Reachable_serve db req :
    Reachable db → Reachable (POST (handler req) db).1.

(** Every stored hand is made of card codes, and the user of every stored
    round has a wallet row. *)
Definition wellFormed (db : DB) : Prop :=
  ∀ id r, gameRound db !! id = Some r →
    Forall (λ c, isCardCode c = true) (GameRound.hand r)
    ∧ is_Some (gameWallet db !! GameRound.userId r).

Definition keepsWellFormed (db db' : DB) : Prop :=
  wellFormed db → wellFormed db'.

(** ** A sample database

    One user, one wallet and one playing round on the seed "s1", whose
    canonical deck starts 4S, 6H, 6D, KS. *)
Definition sampleRound (nonce : Z) (hand : list string) (total : Z)
  : GameRound.t :=
  {| GameRound.userId := "alice";
     GameRound.state := PLAYING;
     GameRound.seed := JS.codeUnits "s1";
     GameRound.nonce := nonce;
     GameRound.hand := hand;
     GameRound.total := total;
     GameRound.points := 0;
     GameRound.finishedAt := None;
     GameRound.createdAt := 1000;
     GameRound.updatedAt := 1000;
     GameRound.gameWalletId := Some "wal_1"%string |}.

Definition sampleWallet : GameWallet.t :=
  {| GameWallet.id := "wal_1";
     GameWallet.balance := 40;
     GameWallet.createdAt := 900;
     GameWallet.updatedAt := 900 |}.

Definition sampleDB (round : GameRound.t) : DB :=
  {| gameRound := {[ "rnd_1"%string := round ]};
     gameWallet := {[ "alice"%string := sampleWallet ]};
     roundLog := [] |}.

Definition sampleHitEnv : HitEnv := {| hit_now := 2000; hit_uuid := "u1" |}.

Definition sampleStandEnv : StandEnv :=
  {| stand_walletNow := 3000; stand_walletUuid := "u2";
     stand_now := 3001; stand_logUuid := "u3" |}.

(** * Properties *)

(** ** The shuffled deck *)

Section Shuffle.
Context {A : Type}.
Implicit Types arr : list A.

Lemma swap_Permutation arr i j : swap arr i j ≡ₚ arr.
Proof.
  unfold swap.
  destruct (arr !! i) as [xi|] eqn:Hi; [|done].
  destruct (arr !! j) as [xj|] eqn:Hj; [|done].
  by apply Permutation_insert_swap.
Qed.

Lemma length_swap arr i j : length (swap arr i j) = length arr.
Proof. by rewrite swap_Permutation. Qed.

(** Inside the array the swap is the assignment of the source. *)
Lemma swap_in_range arr i j :
  (i < length arr)%nat → (j ≤ i)%nat →
  ∃ xi xj, arr !! i = Some xi ∧ arr !! j = Some xj
           ∧ swap arr i j = <[j := xi]> (<[i := xj]> arr).
Proof.
  intros Hi Hj.
  destruct (lookup_lt_is_Some_2 arr i Hi) as [xi Hxi].
  destruct (lookup_lt_is_Some_2 arr j ltac:(lia)) as [xj Hxj].
  exists xi, xj. unfold swap. by rewrite Hxi, Hxj.
Qed.

Lemma shuffle_loop_Permutation n arr t : (shuffle_loop n arr t).1 ≡ₚ arr.
Proof.
  revert arr t. induction n as [|n IH]; intros arr t; simpl; [done|].
  destruct (rng t) as [t' u]. rewrite IH. apply swap_Permutation.
Qed.

Lemma shuffleInPlace_Permutation arr t : (shuffleInPlace arr t).1 ≡ₚ arr.
Proof. apply shuffle_loop_Permutation. Qed.

End Shuffle.

Lemma ushr_0_range x : 0 ≤ JS.ushr x 0 < JS.two32.
Proof.
  unfold JS.ushr, JS.toUint32. rewrite Z.shiftr_0_r.
  apply Z.mod_pos_bound. reflexivity.
Qed.

Lemma rng_range t : 0 ≤ (rng t).2 < JS.two32.
Proof. apply ushr_0_range. Qed.

(** The index that the shuffle swaps with never leaves [0 .. i]. *)
Lemma shuffle_index_le u i :
  0 ≤ u < JS.two32 → (shuffle_index u i ≤ i)%nat.
Proof.
  intros [Hu0 Hu]. unfold shuffle_index.
  assert (u * (Z.of_nat i + 1) / JS.two32 < Z.of_nat i + 1).
  { apply Z.div_lt_upper_bound; [reflexivity|]. unfold JS.two32 in *. nia. }
  assert (0 ≤ u * (Z.of_nat i + 1) / JS.two32).
  { apply Z.div_pos; [nia|reflexivity]. }
  lia.
Qed.

Lemma buildDeck_length : length buildDeck = 52%nat.
Proof. reflexivity. Qed.

Lemma buildDeck_NoDup : NoDup buildDeck.
Proof. apply (bool_decide_unpack _). by vm_compute. Qed.

Lemma buildDeck_isCardCode : Forall (λ c, isCardCode c = true) buildDeck.
Proof. apply Forall_forall. intros c Hc.
  apply list_elem_of_bind in Hc as (r & Hc & Hr).
  apply list_elem_of_bind in Hc as (s & Hc & Hs).
  apply list_elem_of_singleton in Hc as ->.
  unfold RANKS in Hr. unfold SUITS in Hs.
  repeat (apply elem_of_cons in Hr as [->|Hr]);
    try (by apply elem_of_nil in Hr);
    repeat (apply elem_of_cons in Hs as [->|Hs]);
    try (by apply elem_of_nil in Hs); reflexivity.
Qed.

Lemma buildDeck_rank_suit c :
  c ∈ buildDeck ↔ ∃ r s, r ∈ RANKS ∧ s ∈ SUITS ∧ c = (r +:+ s)%string.
Proof.
  unfold buildDeck. split.
  - intros (r & Hc & Hr)%list_elem_of_bind.
    apply list_elem_of_bind in Hc as (s & Hc & Hs).
    apply list_elem_of_singleton in Hc. eauto.
  - intros (r & s & Hr & Hs & ->).
    apply list_elem_of_bind. exists r. split; [|done].
    apply list_elem_of_bind. exists s. split; [|done].
    by apply list_elem_of_singleton.
Qed.

Lemma createShuffledDeck_Permutation seed nonce :
  createShuffledDeck seed nonce ≡ₚ buildDeck.
Proof. apply shuffleInPlace_Permutation. Qed.

Lemma createShuffledDeck_length seed nonce :
  length (createShuffledDeck seed nonce) = 52%nat.
Proof. by rewrite createShuffledDeck_Permutation. Qed.

Lemma createShuffledDeck_NoDup seed nonce :
  NoDup (createShuffledDeck seed nonce).
Proof. rewrite createShuffledDeck_Permutation. apply buildDeck_NoDup. Qed.

Lemma createShuffledDeck_elem seed nonce c :
  c ∈ createShuffledDeck seed nonce ↔ c ∈ buildDeck.
Proof. by rewrite createShuffledDeck_Permutation. Qed.

Lemma createShuffledDeck_isCardCode seed nonce c :
  c ∈ createShuffledDeck seed nonce → isCardCode c = true.
Proof.
  rewrite createShuffledDeck_elem. intros Hc.
  by apply (proj1 (Forall_forall _ _) buildDeck_isCardCode).
Qed.

(** C1. For every seed and every nonce, the shuffled deck has exactly 52
    elements, no element occurs twice, every element is a valid card code
    (accepted by [isCardCode], and one of the 13 ranks followed by one of the
    4 suits), and two calls with the same seed and nonce return the same
    sequence. *)
Theorem createShuffledDeck_52_distinct_valid_deterministic
    (seed seed' : list Z) (nonce nonce' : Z) :
  seed' = seed → nonce' = nonce →
  length (createShuffledDeck seed nonce) = 52%nat
  ∧ NoDup (createShuffledDeck seed nonce)
  ∧ Forall (λ c, isCardCode c = true
                 ∧ ∃ r s, r ∈ RANKS ∧ s ∈ SUITS ∧ c = (r +:+ s)%string)
           (createShuffledDeck seed nonce)
  ∧ createShuffledDeck seed' nonce' = createShuffledDeck seed nonce.
Proof.
  intros -> ->. split_and!.
  - apply createShuffledDeck_length.
  - apply createShuffledDeck_NoDup.
  - apply Forall_forall. intros c Hc. split.
    + by eapply createShuffledDeck_isCardCode.
    + apply buildDeck_rank_suit. by eapply createShuffledDeck_elem.
  - reflexivity.
Qed.

Lemma createShuffledDeck_52_distinct_valid_deterministic_witness :
  length (createShuffledDeck (JS.codeUnits "s1") 0) = 52%nat
  ∧ NoDup (createShuffledDeck (JS.codeUnits "s1") 0)
  ∧ Forall (λ c, isCardCode c = true
                 ∧ ∃ r s, r ∈ RANKS ∧ s ∈ SUITS ∧ c = (r +:+ s)%string)
           (createShuffledDeck (JS.codeUnits "s1") 0)
  ∧ createShuffledDeck (JS.codeUnits "s1") 0
    = createShuffledDeck (JS.codeUnits "s1") 0.
Proof.
  apply (createShuffledDeck_52_distinct_valid_deterministic
           (JS.codeUnits "s1") (JS.codeUnits "s1") 0 0); reflexivity.
Defined.

(** ** The seed hash *)

Lemma createSeededRng_mixed seed nonce :
  createSeededRng seed nonce
  = (JS.xor (fnv1a32 seed) (nonce mod 2 ^ 32)) mod 2 ^ 32.
Proof.
  unfold createSeededRng, mulberry32, JS.ushr, JS.toUint32.
  rewrite !Z.shiftr_0_r. change JS.two32 with (2 ^ 32).
  by rewrite Z.mod_mod.
Qed.

Lemma fnv1a32_empty : fnv1a32 [] = fnv1a32_reference [].
Proof. reflexivity. Qed.

(** On sample seeds the rounding of [JS.roundDouble] is the rounding of the
    binary64 multiplication. *)
Lemma fnv1a32_double_samples :
  Forall (λ seed, fnv1a32_double (JS.codeUnits seed)
                  = fnv1a32 (JS.codeUnits seed))
         ["a"; "s1"; "hello world"; "alice|2025-01-01T00:00:00.000Z|u"]%string.
Proof. repeat constructor; by vm_compute. Qed.

(** C8. The hash that [fnv1a32] returns is not the FNV-1a hash of the seed:
    the multiplication by the prime is a multiplication of doubles, whose
    product is rounded to 53 bits before it is wrapped to 32.  On the seed
    "a" the code returns 0xe40c2930, with the rounding written out as with
    the binary64 multiplication of the kernel, where FNV-1a is 0xe40c292c. *)
Theorem fnv1a32_differs_from_reference :
  fnv1a32 (JS.codeUnits "a") = 3826002224
  ∧ fnv1a32_double (JS.codeUnits "a") = 3826002224
  ∧ fnv1a32_reference (JS.codeUnits "a") = 3826002220
  ∧ fnv1a32 (JS.codeUnits "a") ≠ fnv1a32_reference (JS.codeUnits "a").
Proof.
  split_and!; [by vm_compute|by vm_compute|by vm_compute|].
  vm_compute. discriminate.
Qed.

(** ** Points *)

Lemma calculatePoints_nonneg total : 0 ≤ calculatePoints total.
Proof.
  unfold calculatePoints.
  repeat case_match; try lia. apply Z.div_pos; lia.
Qed.

Lemma calculatePoints_mid total :
  0 < total < 21 → calculatePoints total = total * 100 / 21.
Proof.
  intros ?. unfold calculatePoints.
  repeat case_match; lia.
Qed.

(** The double arithmetic of the source gives the integer quotient. *)
Lemma calculatePoints_double_eq total :
  calculatePoints_double total = calculatePoints total.
Proof.
  unfold calculatePoints_double, calculatePoints.
  destruct (Z.ltb_spec 21 total) as [|Hle]; [done|].
  destruct (Z.eqb_spec total 21) as [|Hne]; [done|].
  destruct (Z.ltb_spec 0 total) as [Hpos|]; [|done].
  assert (total ∈ seqZ 1 20) as Hin by (apply elem_of_seqZ; lia).
  assert (forallb (λ t, JS.floor (PrimFloat.mul
                                    (PrimFloat.div (JS.double t) (JS.double 21))
                                    (JS.double 100)) =? t * 100 / 21)
                  (seqZ 1 20) = true) as Hall by (vm_compute; reflexivity).
  apply Z.eqb_eq.
  apply (proj1 (forallb_forall _ _) Hall). by apply list_elem_of_In.
Qed.

(** C5. [calculatePoints] is 0 above 21, 100 at 21, the floor of
    [total / 21 * 100] strictly between 0 and 21, and 0 at 0; it does not
    decrease on (0, 21]; and it is 0, 100, 85 and 0 at 22, 21, 18 and 0.  The
    binary64 arithmetic of the source computes the same value for every
    total. *)
Theorem calculatePoints_piecewise_monotone :
  (∀ total, calculatePoints_double total = calculatePoints total)
  ∧ (∀ total, 21 < total → calculatePoints total = 0)
  ∧ calculatePoints 21 = 100
  ∧ (∀ total, 0 < total < 21 →
       calculatePoints total = total * 100 / 21
       ∧ 21 * calculatePoints total ≤ 100 * total
         < 21 * (calculatePoints total + 1))
  ∧ calculatePoints 0 = 0
  ∧ (∀ a b, 0 < a → a ≤ b → b ≤ 21 → calculatePoints a ≤ calculatePoints b)
  ∧ calculatePoints 22 = 0
  ∧ calculatePoints 18 = 85.
Proof.
  split_and!; try reflexivity.
  - apply calculatePoints_double_eq.
  - intros total ?. unfold calculatePoints. by case_match; [|lia].
  - intros total ?. rewrite calculatePoints_mid by done. split; [done|].
    pose proof (Z.div_mod (total * 100) 21 ltac:(lia)).
    pose proof (Z.mod_pos_bound (total * 100) 21 ltac:(lia)). lia.
  - intros a b ? ? ?. destruct (decide (b = 21)) as [->|].
    + destruct (decide (a = 21)) as [->|]; [done|].
      rewrite calculatePoints_mid by lia. change (calculatePoints 21) with 100.
      apply Z.lt_succ_r, Z.div_lt_upper_bound; lia.
    + rewrite !calculatePoints_mid by lia.
      apply Z.div_le_mono; lia.
Qed.

Lemma calculatePoints_piecewise_monotone_witness :
  calculatePoints 22 = 0
  ∧ calculatePoints 20 = 20 * 100 / 21
  ∧ calculatePoints 18 ≤ calculatePoints 19.
Proof.
  destruct calculatePoints_piecewise_monotone
    as (_ & Hbust & _ & Hmid & _ & Hmono & _).
  split_and!.
  - apply Hbust. lia.
  - apply Hmid. lia.
  - apply Hmono; lia.
Defined.

(** ** The best total *)

Lemma isCardCode_rank code :
  isCardCode code = true → JS.sliceInit code ∈ RANKS.
Proof.
  unfold isCardCode, JS.includes. intros [_ H]%andb_prop.
  by apply bool_decide_eq_true in H.
Qed.

(** A rank is the ace, or has one value, the one [rankBaseValue] gives. *)
Lemma rank_value rank :
  rank ∈ RANKS →
  (String.eqb rank "A" = true ∧ valuesOf rank rankValues = [1; 11])
  ∨ (String.eqb rank "A" = false
     ∧ ∃ v, rankBaseValue rank = Some v ∧ valuesOf rank rankValues = [v]).
Proof.
  unfold RANKS. intros H.
  repeat (apply elem_of_cons in H as [->|H]);
    try (by apply elem_of_nil in H);
    first [ by left | right; split; [reflexivity|]; eexists; by split ].
Qed.

Lemma Attains_nil_inv s : Attains [] s ↔ s = 0.
Proof. split; [by inversion 1|intros ->; constructor]. Qed.

Lemma Attains_cons_inv code cards s :
  Attains (code :: cards) s
  ↔ ∃ v s', v ∈ cardValues code ∧ Attains cards s' ∧ s = v + s'.
Proof.
  split.
  - inversion 1; subst; eauto.
  - intros (v & s' & ? & ? & ->). by constructor.
Qed.

(** The first loop computes the least total and counts the aces; the totals
    a hand can be counted as are the least total plus 10 for some of them. *)
Lemma sumRanks_Attains cards :
  Forall (λ c, isCardCode c = true) cards →
  ∃ base k,
    (∀ sum aces, sumRanks cards sum aces = Some (sum + base, (aces + k)%nat))
    ∧ ∀ s, Attains cards s ↔ ∃ j, (j ≤ k)%nat ∧ s = base + 10 * Z.of_nat j.
Proof.
  induction 1 as [|code cards Hcode _ (base & k & Hsum & Hatt)].
  - exists 0, 0%nat. split.
    + intros sum aces. simpl. by rewrite Z.add_0_r, Nat.add_0_r.
    + intros s. rewrite Attains_nil_inv. split.
      * intros ->. exists 0%nat. lia.
      * intros (j & ? & ->). lia.
  - destruct (rank_value _ (isCardCode_rank _ Hcode))
      as [[Hace Hvals]|[Hace (v & Hv & Hvals)]].
    + exists (base + 1), (S k). split.
      * intros sum aces. simpl. rewrite Hace, Hsum. do 2 f_equal; lia.
      * intros s. rewrite Attains_cons_inv. unfold cardValues. rewrite Hvals.
        split.
        -- intros (v & s' & Hin & Hs' & ->).
           apply Hatt in Hs' as (j & ? & ->).
           apply elem_of_cons in Hin as [->|Hin].
           { exists j. lia. }
           apply list_elem_of_singleton in Hin as ->. exists (S j). lia.
        -- intros (j & Hj & ->). destruct j as [|j].
           { exists 1, base. split_and!; [by left| |lia].
             apply Hatt. exists 0%nat. lia. }
           exists 11, (base + 10 * Z.of_nat j).
           split_and!; [by right; left| |lia].
           apply Hatt. exists j. lia.
    + exists (base + v), k. split.
      * intros sum aces. simpl. rewrite Hace, Hv, Hsum. do 2 f_equal; lia.
      * intros s. rewrite Attains_cons_inv. unfold cardValues. rewrite Hvals.
        split.
        -- intros (v' & s' & Hin & Hs' & ->).
           apply Hatt in Hs' as (j & ? & ->).
           apply list_elem_of_singleton in Hin as ->. exists j. lia.
        -- intros (j & Hj & ->).
           exists v, (base + 10 * Z.of_nat j). split_and!; [by left| |lia].
           apply Hatt. exists j. lia.
Qed.

(** The second loop counts [m] aces as 11, and stops only when there is no
    ace left or one more would pass 21. *)
Lemma upgradeAces_spec aces sum soft :
  ∃ m, (m ≤ aces)%nat
    ∧ total (upgradeAces aces sum soft) = sum + 10 * Z.of_nat m
    ∧ (m = 0%nat ∨ total (upgradeAces aces sum soft) ≤ 21)
    ∧ ((m < aces)%nat → 21 < total (upgradeAces aces sum soft) + 10).
Proof.
  revert sum soft. induction aces as [|aces IH]; intros sum soft; simpl.
  - exists 0%nat. simpl. lia.
  - destruct (Z.leb_spec (sum + 10) 21) as [Hle|Hgt].
    + destruct (IH (sum + 10) true) as (m & Hm & Ht & Hbound & Hstop).
      exists (S m). split_and!; [lia|lia| |lia].
      right. destruct Hbound as [->|]; lia.
    + exists 0%nat. simpl. lia.
Qed.

Lemma calculateBestTotal_valid cards :
  Forall (λ c, isCardCode c = true) cards →
  is_Some (calculateBestTotal cards).
Proof.
  intros (base & k & Hsum & _)%sumRanks_Attains.
  unfold calculateBestTotal. by rewrite Hsum.
Qed.

(** C4. For every hand of card codes, [calculateBestTotal] returns a total
    that some counting of the aces as 1 or 11 gives; when a counting stays at
    or below 21, the total is the greatest such; when none does, it is the
    least total of all (every ace as 1). *)
Theorem calculateBestTotal_best_without_bust (cards : list string) :
  Forall (λ c, isCardCode c = true) cards →
  ∃ t, calculateBestTotal cards = Some t
    ∧ Attains cards (total t)
    ∧ (∀ s, Attains cards s → s ≤ 21 → total t ≤ 21 ∧ s ≤ total t)
    ∧ ((∀ s, Attains cards s → 21 < s) → ∀ s, Attains cards s → total t ≤ s).
Proof.
  intros (base & k & Hsum & Hatt)%sumRanks_Attains.
  unfold calculateBestTotal. rewrite Hsum, Z.add_0_l. simpl.
  destruct (upgradeAces_spec k base false) as (m & Hm & Ht & Hbound & Hstop).
  eexists. split; [done|]. split_and!.
  - apply Hatt. exists m. lia.
  - intros s Hs Hle. apply Hatt in Hs as (j & Hj & ->).
    destruct (decide (j ≤ m)%nat) as [|Hjm].
    + destruct Hbound as [->|]; lia.
    + specialize (Hstop ltac:(lia)). lia.
  - intros Hall s Hs. apply Hatt in Hs as (j & Hj & ->).
    destruct Hbound as [->|Hle]; [lia|].
    assert (21 < total (upgradeAces k base false)); [|lia].
    apply Hall, Hatt. exists m. lia.
Qed.

Lemma calculateBestTotal_best_without_bust_witness :
  ∃ t, calculateBestTotal ["AS"; "AH"; "9D"]%string = Some t
    ∧ Attains ["AS"; "AH"; "9D"]%string (total t)
    ∧ (∀ s, Attains ["AS"; "AH"; "9D"]%string s → s ≤ 21 →
         total t ≤ 21 ∧ s ≤ total t)
    ∧ ((∀ s, Attains ["AS"; "AH"; "9D"]%string s → 21 < s) →
         ∀ s, Attains ["AS"; "AH"; "9D"]%string s → total t ≤ s).
Proof.
  apply (calculateBestTotal_best_without_bust ["AS"; "AH"; "9D"]%string).
  repeat constructor.
Defined.

(** ** Choosing the next card *)

Lemma scanFrom_Some deck hand (i : Z) c :
  scanFrom deck (list_to_set hand) i = Some c
  ↔ 0 ≤ i ∧ firstUnusedFrom deck hand (Z.to_nat i) c.
Proof.
  unfold scanFrom, firstUnusedFrom.
  destruct (Z.ltb_spec i 0) as [Hneg|Hpos]; [split; [done|lia]|].
  rewrite fmap_Some. split.
  - intros ([k c'] & Hfind & ->). split; [done|].
    apply list_find_Some in Hfind as (Hk & Hc & Hmin). simpl.
    rewrite lookup_drop in Hk. rewrite elem_of_list_to_set in Hc.
    exists (Z.to_nat i + k)%nat. split_and!; [lia|done|done|].
    intros j c'' Hj Hjk Hlook.
    destruct (decide (c'' ∈ hand)) as [|Hnot]; [done|exfalso].
    apply (Hmin (j - Z.to_nat i)%nat c'').
    + rewrite lookup_drop. by replace (Z.to_nat i + (j - Z.to_nat i))%nat
        with j by lia.
    + lia.
    + by rewrite elem_of_list_to_set.
  - intros (_ & k & Hk & Hlook & Hc & Hmin).
    exists ((k - Z.to_nat i)%nat, c). split; [|done].
    apply list_find_Some. split_and!.
    + rewrite lookup_drop. by replace (Z.to_nat i + (k - Z.to_nat i))%nat
        with k by lia.
    + by rewrite elem_of_list_to_set.
    + intros j c' Hj Hlt. rewrite lookup_drop in Hj.
      rewrite elem_of_list_to_set. intros Hnot. apply Hnot.
      eapply (Hmin (Z.to_nat i + j)%nat); [lia|lia|done].
Qed.

Lemma scanFrom_None deck hand (i : Z) :
  scanFrom deck (list_to_set hand) i = None
  ↔ i < 0 ∨ ∀ k c, (Z.to_nat i ≤ k)%nat → deck !! k = Some c → c ∈ hand.
Proof.
  unfold scanFrom.
  destruct (Z.ltb_spec i 0) as [Hneg|Hpos]; [split; [by left|done]|].
  rewrite fmap_None, list_find_None, Forall_forall. split.
  - intros Hall. right. intros k c Hk Hlook.
    destruct (decide (c ∈ hand)) as [|Hnot]; [done|exfalso].
    apply (Hall c); [|by rewrite elem_of_list_to_set].
    apply list_elem_of_lookup. exists (k - Z.to_nat i)%nat.
    rewrite lookup_drop. by replace (Z.to_nat i + (k - Z.to_nat i))%nat
      with k by lia.
  - intros [?|Hall]; [lia|]. intros c [j Hj]%list_elem_of_lookup.
    rewrite lookup_drop in Hj. rewrite elem_of_list_to_set.
    intros Hnot. apply Hnot. eapply Hall; [|done]. lia.
Qed.

Lemma firstUnusedFrom_elem deck hand i c :
  firstUnusedFrom deck hand i c → c ∈ deck ∧ c ∉ hand.
Proof.
  intros (k & _ & Hlook & Hc & _). split; [|done].
  apply list_elem_of_lookup. eauto.
Qed.

Lemma falsy_Some_nonempty (deck : list string) c :
  Forall (λ c, c ≠ EmptyString) deck → c ∈ deck → falsy (Some c) = false.
Proof.
  intros Hall Hc. simpl. apply bool_decide_eq_false.
  by apply (proj1 (Forall_forall _ _) Hall).
Qed.

Lemma firstUnusedFrom_unique deck hand i c1 c2 :
  firstUnusedFrom deck hand i c1 → firstUnusedFrom deck hand i c2 → c1 = c2.
Proof.
  intros (k1 & ? & Hl1 & Hc1 & Hmin1) (k2 & ? & Hl2 & Hc2 & Hmin2).
  destruct (decide (k1 < k2)%nat) as [Hlt|].
  { destruct Hc1. by apply (Hmin2 k1). }
  destruct (decide (k2 < k1)%nat) as [Hlt|].
  { destruct Hc2. by apply (Hmin1 k2). }
  assert (k1 = k2) as -> by lia. congruence.
Qed.

(** On a deck without the empty string the choice is: the first unused card
    from the position on, and when that scan finds none, the first unused
    card from the start.  The candidate at the position itself, when it is
    unused, is what the first scan finds. *)
Lemma nextCardOf_scan deck (drawsSoFar : Z) hand :
  Forall (λ c, c ≠ EmptyString) deck →
  nextCardOf deck drawsSoFar hand
  = match scanFrom deck (list_to_set hand) drawsSoFar with
    | Some c => Some c
    | None => scanFrom deck (list_to_set hand) 0
    end.
Proof.
  intros Hne. unfold nextCardOf.
  assert (Hfalsy : ∀ i c, scanFrom deck (list_to_set hand) i = Some c →
            falsy (Some c) = false).
  { intros i c Hscan.
    apply scanFrom_Some in Hscan as [_ [Hc _]%firstUnusedFrom_elem].
    by apply (falsy_Some_nonempty deck). }
  assert (Hrest :
    (let nextCard := scanFrom deck (list_to_set hand) drawsSoFar in
     let nextCard := if falsy nextCard
                     then scanFrom deck (list_to_set hand) 0 else nextCard in
     if falsy nextCard then None else nextCard)
    = match scanFrom deck (list_to_set hand) drawsSoFar with
      | Some c => Some c
      | None => scanFrom deck (list_to_set hand) 0
      end).
  { cbv zeta.
    destruct (scanFrom deck (list_to_set hand) drawsSoFar) as [c|] eqn:Hs.
    - by rewrite !(Hfalsy _ _ Hs).
    - cbn [falsy].
      destruct (scanFrom deck (list_to_set hand) 0) as [c|] eqn:Hs0; [|done].
      by rewrite (Hfalsy _ _ Hs0). }
  cbv zeta in *.
  destruct (JS.index deck drawsSoFar) as [c0|] eqn:Hidx; [|exact Hrest].
  unfold JS.index in Hidx.
  destruct (Z.ltb_spec drawsSoFar 0) as [|Hpos]; [done|].
  assert (Hc0 : c0 ∈ deck) by (apply list_elem_of_lookup; eauto).
  rewrite (falsy_Some_nonempty deck) by done.
  cbn [orb default]. case_bool_decide as Hin; [exact Hrest|].
  rewrite elem_of_list_to_set in Hin.
  rewrite (falsy_Some_nonempty deck) by done.
  assert (scanFrom deck (list_to_set hand) drawsSoFar = Some c0) as ->; [|done].
  apply scanFrom_Some. split; [done|].
  exists (Z.to_nat drawsSoFar). split_and!; [done|done|done|lia].
Qed.

Lemma nextCardOf_Some deck (drawsSoFar : Z) hand c :
  Forall (λ c, c ≠ EmptyString) deck →
  nextCardOf deck drawsSoFar hand = Some c
  ↔ (0 ≤ drawsSoFar ∧ firstUnusedFrom deck hand (Z.to_nat drawsSoFar) c)
    ∨ ((drawsSoFar < 0
        ∨ ∀ k c', (Z.to_nat drawsSoFar ≤ k)%nat →
                  deck !! k = Some c' → c' ∈ hand)
       ∧ firstUnusedFrom deck hand 0 c).
Proof.
  intros Hne. rewrite nextCardOf_scan by done.
  rewrite <-scanFrom_None, <-scanFrom_Some.
  assert (scanFrom deck (list_to_set hand) 0 = Some c
          ↔ firstUnusedFrom deck hand 0 c) as <-.
  { rewrite scanFrom_Some. naive_solver. }
  destruct (scanFrom deck (list_to_set hand) drawsSoFar); naive_solver.
Qed.

Lemma nextCardOf_None deck (drawsSoFar : Z) hand :
  Forall (λ c, c ≠ EmptyString) deck →
  nextCardOf deck drawsSoFar hand = None ↔ ∀ c, c ∈ deck → c ∈ hand.
Proof.
  intros Hne. rewrite nextCardOf_scan by done. split.
  - destruct (scanFrom deck (list_to_set hand) drawsSoFar); [done|].
    intros [?|Hall]%scanFrom_None; [lia|].
    intros c [k Hk]%list_elem_of_lookup. apply (Hall k); [lia|done].
  - intros Hall.
    assert (∀ i, scanFrom deck (list_to_set hand) i = None) as Hnone.
    { intros i. apply scanFrom_None. right. intros k c _ Hk.
      apply Hall, list_elem_of_lookup. eauto. }
    by rewrite !Hnone.
Qed.

Lemma nextCardOf_elem deck (drawsSoFar : Z) hand c :
  Forall (λ c, c ≠ EmptyString) deck →
  nextCardOf deck drawsSoFar hand = Some c → c ∈ deck ∧ c ∉ hand.
Proof.
  intros Hne Hnext. apply nextCardOf_Some in Hnext as [[_ H]|[_ H]];
    [by eapply firstUnusedFrom_elem..|done].
Qed.

(** ** Running a handler *)

Lemma POST_Return r db : POST (Return r) db = (db, r).
Proof. reflexivity. Qed.

Lemma POST_Throw db : POST Throw db = (db, internalError).
Proof. reflexivity. Qed.

Lemma POST_Await {B} (q : Query B) k db :
  POST (Await q k) db
  = match q db with
    | Some (db', b) => POST (k b) db'
    | None => (db, internalError)
    end.
Proof. unfold POST. simpl. by destruct (q db) as [[db' b]|]. Qed.

Lemma POST_respond s f db :
  POST (respond s f) db = (db, from_option f internalError s).
Proof. by destruct s. Qed.

Lemma toApiState_valid id round balance :
  Forall (λ c, isCardCode c = true) (GameRound.hand round) →
  toApiState id round balance = Some (snapshot id round balance).
Proof.
  intros Hvalid. unfold toApiState, assertCardCodes.
  assert (forallb isCardCode (GameRound.hand round) = true) as ->.
  { apply forallb_forall. intros c Hc.
    apply (proj1 (Forall_forall _ _) Hvalid). by apply list_elem_of_In. }
  simpl. unfold snapshot. f_equal. f_equal.
  by destruct (GameRound.state round).
Qed.

Lemma toApiState_Some id round balance s :
  toApiState id round balance = Some s →
  Forall (λ c, isCardCode c = true) (GameRound.hand round)
  ∧ s = snapshot id round balance.
Proof.
  intros Hs.
  assert (Forall (λ c, isCardCode c = true) (GameRound.hand round)) as Hvalid.
  { unfold toApiState, assertCardCodes in Hs.
    destruct (forallb isCardCode (GameRound.hand round)) eqn:Hall; [|done].
    apply Forall_forall. intros c Hc.
    by apply (proj1 (forallb_forall _ _) Hall), list_elem_of_In. }
  split; [done|]. rewrite toApiState_valid in Hs by done. congruence.
Qed.

(** ** The hit handler, case by case *)

Section Hit.
Context (env : HitEnv) (userId roundId : string) (expectedNonce : option Z).
Context (round : GameRound.t) (db : DB).

Let request : Prog Response :=
  hit env (Some userId)
      (Some {| hit_roundId := Some roundId;
               hit_expectedNonce := expectedNonce |}).

Let balance : Z := balanceOr0 (gameWallet db !! userId).
Let baseDeck : list string := createShuffledDeck (GameRound.seed round) 0.

Lemma hit_found :
  roundId ≠ EmptyString →
  gameRound db !! roundId = Some round →
  GameRound.userId round = userId →
  POST request db = POST (hitWith env roundId userId expectedNonce round) db.
Proof.
  intros Hid Hround Huser. unfold request, hit. simpl.
  destruct roundId as [|a roundId']; [done|].
  rewrite POST_Await. unfold Prisma.gameRound_findFirst.
  rewrite Hround. simpl. by rewrite bool_decide_eq_true_2.
Qed.

Lemma hitWith_not_playing :
  GameRound.state round ≠ PLAYING →
  POST (hitWith env roundId userId expectedNonce round) db
  = (db, from_option (λ s, json (StateBody s) 409) internalError
           (toApiState roundId round balance)).
Proof.
  intros Hstate. unfold hitWith. rewrite bool_decide_eq_true_2 by done.
  rewrite POST_Await. simpl. by rewrite POST_respond.
Qed.

Lemma hitWith_stale e :
  GameRound.state round = PLAYING →
  expectedNonce = Some e → e ≠ GameRound.nonce round →
  POST (hitWith env roundId userId expectedNonce round) db
  = (db, from_option
           (λ s, json (ErrorCurrentBody
                         "Round changed since client last sync" s) 409)
           internalError (toApiState roundId round balance)).
Proof.
  intros Hstate -> Hne. unfold hitWith.
  rewrite bool_decide_eq_false_2 by naive_solver.
  rewrite bool_decide_eq_true_2 by (split; [done|congruence]).
  rewrite POST_Await. simpl. by rewrite POST_respond.
Qed.

Lemma hitWith_draw :
  GameRound.state round = PLAYING →
  expectedNonce = None ∨ expectedNonce = Some (GameRound.nonce round) →
  POST (hitWith env roundId userId expectedNonce round) db
  = match nextCardOf baseDeck (GameRound.nonce round) (GameRound.hand round)
    with
    | None => (db, json (ErrorBody "Deck exhausted. Start a new round.") 410)
    | Some nextCard =>
        match calculateBestTotal (GameRound.hand round ++ [nextCard]) with
        | None => (db, internalError)
        | Some t =>
            match gameRound db !! roundId with
            | None => (db, internalError)
            | Some stored =>
                let updated :=
                  GameRound.apply (hitData env round nextCard (total t))
                                  stored in
                ({| gameRound := <[roundId := updated]> (gameRound db);
                    gameWallet := gameWallet db;
                    roundLog := roundLog db
                      ++ [hitLog env roundId round nextCard (total t)] |},
                 from_option (λ s, json (StateBody s) 200) internalError
                   (toApiState roundId updated balance))
            end
        end
    end.
Proof.
  intros Hstate Hnonce. unfold hitWith.
  rewrite bool_decide_eq_false_2 by naive_solver.
  rewrite bool_decide_eq_false_2 by (intros [[e He] Hne]; naive_solver).
  fold baseDeck.
  destruct (nextCardOf _ _ _) as [nextCard|]; [|done].
  destruct (calculateBestTotal _) as [t|]; [|done].
  rewrite POST_Await. unfold Prisma.gameRound_update.
  destruct (gameRound db !! roundId) as [stored|]; [|done].
  rewrite POST_Await. simpl. rewrite POST_Await. simpl.
  by rewrite POST_respond.
Qed.

End Hit.

(** ** Hits deal the deck in order *)

Lemma isCardCode_nonempty c : isCardCode c = true → c ≠ EmptyString.
Proof. by intros ? ->. Qed.

Lemma createShuffledDeck_nonempty seed nonce :
  Forall (λ c, c ≠ EmptyString) (createShuffledDeck seed nonce).
Proof.
  apply Forall_forall. intros c Hc.
  by eapply isCardCode_nonempty, createShuffledDeck_isCardCode.
Qed.

Lemma hitDB_round env roundId round nextCard total db :
  gameRound (hitDB env roundId round nextCard total db) !! roundId
  = Some (GameRound.apply (hitData env round nextCard total) round).
Proof. apply lookup_insert_eq. Qed.

(** The next card of a round in step with its deck is the card at the
    position [nonce]. *)
Lemma consistent_next round c :
  consistent round →
  createShuffledDeck (GameRound.seed round) 0
    !! length (GameRound.hand round) = Some c →
  nextCardOf (createShuffledDeck (GameRound.seed round) 0)
             (GameRound.nonce round) (GameRound.hand round) = Some c.
Proof.
  intros [Hnonce Hhand] Hc.
  apply nextCardOf_Some; [apply createShuffledDeck_nonempty|].
  left. rewrite Hnonce, Nat2Z.id. split; [lia|].
  exists (length (GameRound.hand round)). split_and!; [done|done| |lia].
  rewrite Hhand. intros [j Hj]%list_elem_of_lookup.
  apply lookup_take_Some in Hj as [Hj Hlt].
  pose proof (NoDup_lookup _ _ _ _ (createShuffledDeck_NoDup _ _) Hj Hc).
  lia.
Qed.

Lemma consistent_valid round :
  consistent round → Forall (λ c, isCardCode c = true) (GameRound.hand round).
Proof.
  intros [_ ->]. apply Forall_forall. intros c (i & Hc & _)%elem_of_take.
  eapply createShuffledDeck_isCardCode, list_elem_of_lookup. eauto.
Qed.

Lemma consistent_length round :
  consistent round → (length (GameRound.hand round) ≤ 52)%nat.
Proof.
  intros [_ Hhand]. apply (f_equal length) in Hhand.
  rewrite length_take, createShuffledDeck_length in Hhand. lia.
Qed.

Lemma initRound_dealOne roundId now seed :
  ∃ c started,
    createShuffledDeck seed 0 !! 0%nat = Some c
    ∧ initRound roundId now {| param_seed := seed; param_nonce := None;
                               param_dealOne := true |} = Some started
    ∧ init_hand started = [c]
    ∧ init_nonce started = 1
    ∧ init_seed started = seed
    ∧ init_state started = Playing
    ∧ init_deckLeft started = drop 1 (createShuffledDeck seed 0).
Proof.
  unfold initRound. cbn [param_seed param_nonce param_dealOne default].
  pose proof (createShuffledDeck_length seed 0) as Hlen.
  destruct (createShuffledDeck seed 0) as [|c rest] eqn:Hdeck; [done|].
  assert (isCardCode c = true) as Hc.
  { apply (createShuffledDeck_isCardCode seed 0). rewrite Hdeck. by left. }
  destruct (calculateBestTotal_valid [c]) as [t Ht]; [by constructor|].
  exists c. cbn [drawCard mbind option_bind]. rewrite Ht.
  cbn [mbind option_bind]. rewrite Ht. cbn [mbind option_bind].
  eexists. split_and!; reflexivity.
Qed.

(** C2. For a playing round in step with its deck (the nonce counts the
    cards of the hand, and the hand is the first cards of the canonical deck
    [createShuffledDeck(seed, 0)]), a hit that deals a card deals the card at
    position [nonce] of that deck, adds 1 to the nonce and leaves the round in
    step; a hit does deal whenever the nonce is below 52; and [initRound]
    with [dealOne] deals the card at position 0 of that deck and sets the
    nonce to 1. *)
Theorem hit_deals_deck_at_nonce (env : HitEnv) (userId roundId : string)
    (expectedNonce : option Z) (round : GameRound.t) (db : DB) :
  roundId ≠ EmptyString →
  gameRound db !! roundId = Some round →
  GameRound.userId round = userId →
  GameRound.state round = PLAYING →
  expectedNonce = None ∨ expectedNonce = Some (GameRound.nonce round) →
  consistent round →
  let deck := createShuffledDeck (GameRound.seed round) 0 in
  let res := POST (hit env (Some userId)
                       (Some {| hit_roundId := Some roundId;
                                hit_expectedNonce := expectedNonce |})) db in
  (status res.2 = 200 →
     ∃ c round',
       JS.index deck (GameRound.nonce round) = Some c
       ∧ gameRound res.1 !! roundId = Some round'
       ∧ GameRound.hand round' = GameRound.hand round ++ [c]
       ∧ GameRound.nonce round' = GameRound.nonce round + 1
       ∧ consistent round'
       ∧ body res.2
         = StateBody (snapshot roundId round' (balanceOr0 (gameWallet db !! userId))))
  ∧ (GameRound.nonce round < 52 → status res.2 = 200)
  ∧ (∀ id now,
       ∃ c started,
         JS.index deck 0 = Some c
         ∧ initRound id now {| param_seed := GameRound.seed round;
                               param_nonce := None;
                               param_dealOne := true |} = Some started
         ∧ init_hand started = [c]
         ∧ init_nonce started = 1).
Proof.
  intros Hid Hround Huser Hstate Hexp Hcons deck res.
  assert (Hres : res = POST (hitWith env roundId userId expectedNonce round) db)
    by (by apply hit_found).
  rewrite hitWith_draw in Hres by done. rewrite Hround in Hres.
  pose proof Hcons as [Hnonce Hhand].
  pose proof (consistent_valid _ Hcons) as Hvalid.
  assert (Hdeal : ∀ c, deck !! length (GameRound.hand round) = Some c →
    ∃ round',
      res.1 = hitDB env roundId round c
                (total (default {| total := 0; soft := false |}
                          (calculateBestTotal (GameRound.hand round ++ [c]))))
                db
      ∧ gameRound res.1 !! roundId = Some round'
      ∧ GameRound.hand round' = GameRound.hand round ++ [c]
      ∧ GameRound.nonce round' = GameRound.nonce round + 1
      ∧ consistent round'
      ∧ res.2 = json (StateBody (snapshot roundId round'
                        (balanceOr0 (gameWallet db !! userId)))) 200).
  { intros c Hc. rewrite (consistent_next _ c) in Hres by done.
    assert (Forall (λ c, isCardCode c = true) (GameRound.hand round ++ [c]))
      as Hvalid'.
    { apply Forall_app. split; [done|]. constructor; [|done].
      apply (createShuffledDeck_isCardCode (GameRound.seed round) 0).
      apply list_elem_of_lookup. eauto. }
    destruct (calculateBestTotal_valid _ Hvalid') as [t Ht].
    rewrite Ht in Hres |- *. cbv zeta in Hres.
    rewrite toApiState_valid in Hres by done. rewrite Hres. simpl.
    eexists. split_and!; [done|apply lookup_insert_eq|done|done| |done].
    split; simpl.
    - rewrite length_app, Hnonce. simpl. lia.
    - rewrite length_app. simpl. rewrite Nat.add_1_r.
      erewrite take_S_r by done. by rewrite <-Hhand. }
  split_and!.
  - intros Hok.
    destruct (deck !! length (GameRound.hand round)) as [c|] eqn:Hc.
    + destruct (Hdeal c eq_refl) as (round' & _ & ? & ? & ? & ? & Hbody).
      exists c, round'. split_and!; try done.
      * unfold JS.index. rewrite Hnonce, Nat2Z.id.
        by destruct (Z.ltb_spec (Z.of_nat (length (GameRound.hand round))) 0);
          [lia|].
      * by rewrite Hbody.
    + (* every card is in hand: the hit does not deal *)
      exfalso. apply lookup_ge_None in Hc.
      assert (nextCardOf deck (GameRound.nonce round) (GameRound.hand round)
              = None) as Hnone.
      { apply nextCardOf_None; [apply createShuffledDeck_nonempty|].
        intros c Hin. rewrite Hhand. fold deck. by rewrite take_ge. }
      fold deck in Hres. rewrite Hnone in Hres. by rewrite Hres in Hok.
  - intros Hlt.
    destruct (lookup_lt_is_Some_2 deck (length (GameRound.hand round)))
      as [c Hc].
    { unfold deck. rewrite createShuffledDeck_length. lia. }
    destruct (Hdeal c Hc) as (round' & _ & _ & _ & _ & _ & ->). done.
  - intros id now.
    destruct (initRound_dealOne id now (GameRound.seed round))
      as (c & started & ? & ? & ? & ? & _).
    exists c, started. split_and!; done.
Qed.

Lemma hit_deals_deck_at_nonce_witness :
  let round := sampleRound 1 ["4S"%string] 4 in
  let db := sampleDB round in
  let deck := createShuffledDeck (GameRound.seed round) 0 in
  let res := POST (hit sampleHitEnv (Some "alice"%string)
                       (Some {| hit_roundId := Some "rnd_1"%string;
                                hit_expectedNonce := Some 1 |})) db in
  (status res.2 = 200 →
     ∃ c round',
       JS.index deck (GameRound.nonce round) = Some c
       ∧ gameRound res.1 !! "rnd_1"%string = Some round'
       ∧ GameRound.hand round' = GameRound.hand round ++ [c]
       ∧ GameRound.nonce round' = GameRound.nonce round + 1
       ∧ consistent round'
       ∧ body res.2
         = StateBody (snapshot "rnd_1" round'
                        (balanceOr0 (gameWallet db !! "alice"%string))))
  ∧ (GameRound.nonce round < 52 → status res.2 = 200)
  ∧ (∀ id now,
       ∃ c started,
         JS.index deck 0 = Some c
         ∧ initRound id now {| param_seed := GameRound.seed round;
                               param_nonce := None;
                               param_dealOne := true |} = Some started
         ∧ init_hand started = [c]
         ∧ init_nonce started = 1).
Proof.
  apply (hit_deals_deck_at_nonce sampleHitEnv "alice" "rnd_1" (Some 1)
           (sampleRound 1 ["4S"%string] 4)
           (sampleDB (sampleRound 1 ["4S"%string] 4))).
  - discriminate.
  - vm_compute. reflexivity.
  - reflexivity.
  - reflexivity.
  - right. reflexivity.
  - split; vm_compute; reflexivity.
Defined.

(** ** No card is dealt twice *)

(** C7. Whatever the nonce and the hand of a playing round are, a hit that
    succeeds appends a card of the canonical deck that the hand does not
    hold: the first unused card at or after position [nonce], and when there
    is none there (or the position is outside the deck), the first unused card
    from the start of the deck.  When the hand holds every card of the deck,
    the hit answers 410 "Deck exhausted" and writes nothing.  When the hand is
    made of card codes and a card is unused, the hit succeeds. *)
Theorem hit_never_deals_a_held_card (env : HitEnv) (userId roundId : string)
    (expectedNonce : option Z) (round : GameRound.t) (db : DB) :
  roundId ≠ EmptyString →
  gameRound db !! roundId = Some round →
  GameRound.userId round = userId →
  GameRound.state round = PLAYING →
  expectedNonce = None ∨ expectedNonce = Some (GameRound.nonce round) →
  let deck := createShuffledDeck (GameRound.seed round) 0 in
  let hand := GameRound.hand round in
  let nonce := GameRound.nonce round in
  let res := POST (hit env (Some userId)
                       (Some {| hit_roundId := Some roundId;
                                hit_expectedNonce := expectedNonce |})) db in
  (status res.2 = 200 →
     ∃ c round',
       c ∈ deck ∧ (c ∉ hand)
       ∧ ((0 ≤ nonce ∧ firstUnusedFrom deck hand (Z.to_nat nonce) c)
          ∨ ((nonce < 0
              ∨ ∀ k c', (Z.to_nat nonce ≤ k)%nat →
                        deck !! k = Some c' → c' ∈ hand)
             ∧ firstUnusedFrom deck hand 0 c))
       ∧ gameRound res.1 !! roundId = Some round'
       ∧ GameRound.hand round' = hand ++ [c]
       ∧ (NoDup hand → NoDup (GameRound.hand round')))
  ∧ ((∀ c, c ∈ deck → c ∈ hand) →
       res = (db, json (ErrorBody "Deck exhausted. Start a new round.") 410))
  ∧ (Forall (λ c, isCardCode c = true) hand →
     (∃ c, c ∈ deck ∧ c ∉ hand) → status res.2 = 200).
Proof.
  intros Hid Hround Huser Hstate Hexp deck hand nonce res.
  assert (Hres : res = POST (hitWith env roundId userId expectedNonce round) db)
    by (by apply hit_found).
  rewrite hitWith_draw in Hres by done. rewrite Hround in Hres.
  fold deck hand nonce in Hres.
  pose proof (createShuffledDeck_nonempty (GameRound.seed round) 0) as Hne.
  split_and!.
  - intros Hok.
    destruct (nextCardOf deck nonce hand) as [c|] eqn:Hnext;
      [|by rewrite Hres in Hok].
    destruct (calculateBestTotal (hand ++ [c])) as [t|];
      [|by rewrite Hres in Hok].
    destruct (nextCardOf_elem _ _ _ _ Hne Hnext) as [Hdeck Hhand].
    eexists c, _. rewrite Hres.
    split_and!; [done|done| |apply lookup_insert_eq|done|].
    + by apply nextCardOf_Some.
    + intros Hnodup. simpl. apply NoDup_app. split_and!; [done| |].
      * intros x Hx ->%list_elem_of_singleton. done.
      * apply NoDup_singleton.
  - intros Hall.
    apply (proj2 (nextCardOf_None deck nonce hand Hne)) in Hall.
    by rewrite Hres, Hall.
  - intros Hvalid (c & Hdeck & Hhand).
    destruct (nextCardOf deck nonce hand) as [c'|] eqn:Hnext.
    + destruct (nextCardOf_elem _ _ _ _ Hne Hnext) as [Hdeck' _].
      assert (Forall (λ c, isCardCode c = true) (hand ++ [c'])) as Hvalid'.
      { apply Forall_app. split; [done|]. constructor; [|done].
        by apply (createShuffledDeck_isCardCode (GameRound.seed round) 0). }
      destruct (calculateBestTotal_valid _ Hvalid') as [t Ht].
      rewrite Ht in Hres. cbv zeta in Hres.
      rewrite toApiState_valid in Hres by done. by rewrite Hres.
    + exfalso. apply Hhand.
      by apply (proj1 (nextCardOf_None deck nonce hand Hne) Hnext).
Qed.

Lemma hit_never_deals_a_held_card_witness :
  let round := sampleRound 0 ["4S"; "6D"]%string 10 in
  let db := sampleDB round in
  let deck := createShuffledDeck (GameRound.seed round) 0 in
  let hand := GameRound.hand round in
  let nonce := GameRound.nonce round in
  let res := POST (hit sampleHitEnv (Some "alice"%string)
                       (Some {| hit_roundId := Some "rnd_1"%string;
                                hit_expectedNonce := None |})) db in
  (status res.2 = 200 →
     ∃ c round',
       c ∈ deck ∧ (c ∉ hand)
       ∧ ((0 ≤ nonce ∧ firstUnusedFrom deck hand (Z.to_nat nonce) c)
          ∨ ((nonce < 0
              ∨ ∀ k c', (Z.to_nat nonce ≤ k)%nat →
                        deck !! k = Some c' → c' ∈ hand)
             ∧ firstUnusedFrom deck hand 0 c))
       ∧ gameRound res.1 !! "rnd_1"%string = Some round'
       ∧ GameRound.hand round' = hand ++ [c]
       ∧ (NoDup hand → NoDup (GameRound.hand round')))
  ∧ ((∀ c, c ∈ deck → c ∈ hand) →
       res = (db, json (ErrorBody "Deck exhausted. Start a new round.") 410))
  ∧ (Forall (λ c, isCardCode c = true) hand →
     (∃ c, c ∈ deck ∧ c ∉ hand) → status res.2 = 200).
Proof.
  apply (hit_never_deals_a_held_card sampleHitEnv "alice" "rnd_1" None
           (sampleRound 0 ["4S"; "6D"]%string 10)
           (sampleDB (sampleRound 0 ["4S"; "6D"]%string 10))).
  - discriminate.
  - vm_compute. reflexivity.
  - reflexivity.
  - reflexivity.
  - left. reflexivity.
Defined.

(** ** The stand handler, case by case *)

Section Stand.
Context (env : StandEnv) (userId roundId : string).
Context (round : GameRound.t) (wallet : GameWallet.t) (db : DB).

Let request : Prog Response :=
  stand env (Some userId) (Some {| stand_roundId := Some roundId |}).

Lemma stand_found :
  roundId ≠ EmptyString →
  gameRound db !! roundId = Some round →
  GameRound.userId round = userId →
  gameWallet db !! userId = Some wallet →
  POST request db = POST (standWith env roundId userId round wallet) db.
Proof.
  intros Hid Hround Huser Hwallet. unfold request, stand. simpl.
  destruct roundId as [|a roundId']; [done|].
  rewrite POST_Await. unfold Prisma.gameRound_findFirst.
  rewrite Hround. simpl. rewrite bool_decide_eq_true_2 by done.
  unfold standLoaded. rewrite POST_Await. simpl. by rewrite Hwallet.
Qed.

Lemma stand_found_new_wallet :
  roundId ≠ EmptyString →
  gameRound db !! roundId = Some round →
  GameRound.userId round = userId →
  gameWallet db !! userId = None →
  let created :=
    {| GameWallet.id := "wal_" +:+ stand_walletUuid env;
       GameWallet.balance := 0;
       GameWallet.createdAt := stand_walletNow env;
       GameWallet.updatedAt := stand_walletNow env |} in
  POST request db
  = POST (standWith env roundId userId round created)
         (withWallets db (<[userId := created]> (gameWallet db))).
Proof.
  intros Hid Hround Huser Hwallet. unfold request, stand. simpl.
  destruct roundId as [|a roundId']; [done|].
  rewrite POST_Await. unfold Prisma.gameRound_findFirst.
  rewrite Hround. simpl. rewrite bool_decide_eq_true_2 by done.
  unfold standLoaded. rewrite POST_Await. simpl. rewrite Hwallet.
  rewrite POST_Await. unfold Prisma.gameWallet_create. by rewrite Hwallet.
Qed.

Lemma standWith_not_playing :
  GameRound.state round ≠ PLAYING →
  POST (standWith env roundId userId round wallet) db
  = (db, from_option (λ s, json (StateBody s) 409) internalError
           (toApiState roundId round (GameWallet.balance wallet))).
Proof.
  intros Hstate. unfold standWith. rewrite bool_decide_eq_true_2 by done.
  by rewrite POST_respond.
Qed.

(** The transaction when the stored row is still playing: it finalizes. *)
Lemma standTransaction_wins stored w total points :
  gameRound db !! roundId = Some stored →
  GameRound.userId stored = userId →
  GameRound.state stored = PLAYING →
  gameWallet db !! userId = Some w →
  GameWallet.id w = GameWallet.id wallet →
  transaction (standTransaction env roundId userId round wallet total points)
              db
  = Some (standDB env roundId userId round stored w total points db,
          {| finalized := true;
             result_round :=
               Some (GameRound.apply (standData env total points) stored);
             result_wallet :=
               if 0 <? points
               then GameWallet.credit w points (stand_now env) else wallet |}).
Proof.
  intros Hstored Huser Hstate Hw Hid.
  unfold transaction, standTransaction. simpl.
  unfold Prisma.gameRound_updateMany. rewrite Hstored.
  rewrite !bool_decide_eq_true_2 by done. simpl.
  unfold standDB. destruct (0 <? points) eqn:Hpoints; simpl.
  - unfold Prisma.gameWallet_increment. simpl. rewrite Hw.
    rewrite bool_decide_eq_true_2 by done. simpl.
    by rewrite lookup_insert_eq.
  - by rewrite lookup_insert_eq.
Qed.

(** The transaction when the stored row is no longer playing: it writes
    nothing and returns what is stored. *)
Lemma standTransaction_loses stored total points :
  gameRound db !! roundId = Some stored →
  GameRound.state stored ≠ PLAYING →
  transaction (standTransaction env roundId userId round wallet total points)
              db
  = Some (db, {| finalized := false;
                 result_round := Some stored;
                 result_wallet := default wallet (gameWallet db !! userId) |}).
Proof.
  intros Hstored Hstate.
  unfold transaction, standTransaction. simpl.
  unfold Prisma.gameRound_updateMany. rewrite Hstored.
  rewrite (bool_decide_eq_false_2 (GameRound.state stored = PLAYING)) by done.
  rewrite andb_false_r. simpl. by rewrite Hstored.
Qed.

Lemma standWith_wins stored w t :
  GameRound.state round = PLAYING →
  Forall (λ c, isCardCode c = true) (GameRound.hand round) →
  calculateBestTotal (GameRound.hand round) = Some t →
  gameRound db !! roundId = Some stored →
  GameRound.userId stored = userId →
  GameRound.state stored = PLAYING →
  GameRound.hand stored = GameRound.hand round →
  gameWallet db !! userId = Some w →
  GameWallet.id w = GameWallet.id wallet →
  GameWallet.balance w = GameWallet.balance wallet →
  let points := calculatePoints (total t) in
  POST (standWith env roundId userId round wallet) db
  = (standDB env roundId userId round stored w (total t) points db,
     json (StateBody
             (snapshot roundId
                (GameRound.apply (standData env (total t) points) stored)
                (updateBalance (GameWallet.balance wallet) points))) 200).
Proof.
  intros Hstate Hvalid Ht Hstored Huser Hplaying Hhand Hw Hid Hbal points.
  unfold standWith. rewrite bool_decide_eq_false_2 by naive_solver.
  unfold assertCardCodes.
  assert (forallb isCardCode (GameRound.hand round) = true) as ->.
  { apply forallb_forall. intros c Hc.
    apply (proj1 (Forall_forall _ _) Hvalid). by apply list_elem_of_In. }
  simpl. rewrite Ht. rewrite POST_Await.
  rewrite (standTransaction_wins stored w) by done. simpl.
  rewrite POST_respond, toApiState_valid by (simpl; by rewrite Hhand).
  simpl. do 3 f_equal. unfold updateBalance. fold points.
  destruct (0 <? points); simpl; congruence.
Qed.

Lemma standWith_loses stored t :
  GameRound.state round = PLAYING →
  Forall (λ c, isCardCode c = true) (GameRound.hand round) →
  calculateBestTotal (GameRound.hand round) = Some t →
  gameRound db !! roundId = Some stored →
  GameRound.state stored ≠ PLAYING →
  POST (standWith env roundId userId round wallet) db
  = (db, from_option (λ s, json (StateBody s) 409) internalError
           (toApiState roundId stored
              (GameWallet.balance (default wallet (gameWallet db !! userId))))).
Proof.
  intros Hstate Hvalid Ht Hstored Hfinished.
  unfold standWith. rewrite bool_decide_eq_false_2 by naive_solver.
  unfold assertCardCodes.
  assert (forallb isCardCode (GameRound.hand round) = true) as ->.
  { apply forallb_forall. intros c Hc.
    apply (proj1 (Forall_forall _ _) Hvalid). by apply list_elem_of_In. }
  simpl. rewrite Ht. rewrite POST_Await.
  rewrite (standTransaction_loses stored) by done. simpl.
  by rewrite POST_respond.
Qed.

End Stand.

(** ** What every call of a handler keeps *)

Section Respects.
Context (R : relation DB) `{!PreOrder R}.

Lemma run_Respects {A} (p : Prog A) db : Respects R p → R db (run p db).1.
Proof.
  intros Hp. revert db. induction Hp as [r| |B q k Hq _ IH]; intros db; simpl.
  - reflexivity.
  - reflexivity.
  - destruct (q db) as [[db' b]|] eqn:Hrun; [|reflexivity].
    etrans; [by eapply Hq|apply IH].
Qed.

Lemma transaction_preserves {B} (body : Prog B) :
  Respects R body → preserves R (transaction body).
Proof.
  intros Hbody db db' b. unfold transaction.
  pose proof (run_Respects body db Hbody) as Hrun.
  destruct (run body db) as [db'' [b'|]]; [|done].
  by intros [= <- <-].
Qed.

Lemma POST_Respects p db : Respects R p → R db (POST p db).1.
Proof.
  intros Hp. pose proof (run_Respects p db Hp) as Hrun. unfold POST.
  by destruct (run p db) as [db' [r|]].
Qed.

Lemma read_preserves {B} (f : DB → B) : preserves R (λ db, Some (db, f db)).
Proof. intros db db' b [= <- <-]. reflexivity. Qed.

Lemma gameRound_findFirst_preserves id userId :
  preserves R (Prisma.gameRound_findFirst id userId).
Proof. apply read_preserves. Qed.

Lemma gameRound_findFirstPlaying_preserves userId :
  preserves R (Prisma.gameRound_findFirstPlaying userId).
Proof. apply read_preserves. Qed.

Lemma gameRound_findUnique_preserves id :
  preserves R (Prisma.gameRound_findUnique id).
Proof. apply read_preserves. Qed.

Lemma gameWallet_findUnique_preserves userId :
  preserves R (Prisma.gameWallet_findUnique userId).
Proof. apply read_preserves. Qed.

End Respects.

Global Instance balancesGrow_PreOrder : PreOrder balancesGrow.
Proof.
  split.
  - intros db userId. lia.
  - intros db1 db2 db3 H12 H23 userId.
    specialize (H12 userId). specialize (H23 userId). lia.
Qed.

Global Instance roundsKeepIdentity_PreOrder : PreOrder roundsKeepIdentity.
Proof.
  split.
  - intros db id r Hr. exists r. by split_and!.
  - intros db1 db2 db3 H12 H23 id r Hr.
    destruct (H12 id r Hr) as (r2 & Hr2 & ? & ? & ? & ?).
    destruct (H23 id r2 Hr2) as (r3 & Hr3 & ? & ? & ? & ?).
    exists r3. split_and!; [done|congruence..].
Qed.

Global Instance roundsKeepHand_PreOrder : PreOrder roundsKeepHand.
Proof.
  split.
  - intros db id r Hr. exists r. by split_and!.
  - intros db1 db2 db3 H12 H23 id r Hr.
    destruct (H12 id r Hr) as (r2 & Hr2 & ? & ? & ? & ? & ? & ?).
    destruct (H23 id r2 Hr2) as (r3 & Hr3 & ? & ? & ? & ? & ? & ?).
    exists r3. split_and!; [done|congruence..].
Qed.

(** How the relations see a database whose tables are replaced. *)
Lemma balancesGrow_wallets db db' :
  gameWallet db' = gameWallet db → balancesGrow db db'.
Proof. intros Heq userId. rewrite Heq. lia. Qed.

Lemma roundsKeepIdentity_rounds db db' :
  gameRound db' = gameRound db → roundsKeepIdentity db db'.
Proof. intros Heq id r Hr. exists r. rewrite Heq. by split_and!. Qed.

Lemma roundsKeepHand_rounds db db' :
  gameRound db' = gameRound db → roundsKeepHand db db'.
Proof. intros Heq id r Hr. exists r. rewrite Heq. by split_and!. Qed.

Lemma hitData_keepsIdentity env round nextCard total :
  GameRound.keepsIdentity (hitData env round nextCard total).
Proof. by repeat split. Qed.

Lemma standData_keepsHand env total points :
  GameRound.keepsHand (standData env total points).
Proof. by repeat split. Qed.

Lemma roundsKeepIdentity_insert db id d stored :
  GameRound.keepsIdentity d →
  gameRound db !! id = Some stored →
  roundsKeepIdentity db
    (withRounds db (<[id := GameRound.apply d stored]> (gameRound db))).
Proof.
  intros (Huser & Hseed & Hcreated & Hlink) Hstored id' r Hr. simpl.
  destruct (decide (id = id')) as [<-|Hne].
  - rewrite lookup_insert_eq. eexists. split; [done|].
    assert (r = stored) as -> by congruence. simpl.
    rewrite Huser, Hseed, Hcreated, Hlink. by split_and!.
  - rewrite lookup_insert_ne by done. exists r. by split_and!.
Qed.

Lemma roundsKeepHand_insert db id d stored :
  GameRound.keepsHand d →
  gameRound db !! id = Some stored →
  roundsKeepHand db
    (withRounds db (<[id := GameRound.apply d stored]> (gameRound db))).
Proof.
  intros ((Huser & Hseed & Hcreated & Hlink) & Hnonce & Hhand) Hstored id' r Hr.
  simpl. destruct (decide (id = id')) as [<-|Hne].
  - rewrite lookup_insert_eq. eexists. split; [done|].
    assert (r = stored) as -> by congruence. simpl.
    rewrite Huser, Hseed, Hcreated, Hlink, Hnonce, Hhand. by split_and!.
  - rewrite lookup_insert_ne by done. exists r. by split_and!.
Qed.

Lemma balancesGrow_insert db userId w :
  balanceOr0 (gameWallet db !! userId) ≤ GameWallet.balance w →
  balancesGrow db (withWallets db (<[userId := w]> (gameWallet db))).
Proof.
  intros Hle userId'. simpl.
  destruct (decide (userId = userId')) as [<-|Hne].
  - by rewrite lookup_insert_eq.
  - rewrite lookup_insert_ne by done. lia.
Qed.

(** The calls of Prisma, relation by relation. *)
Lemma gameRound_update_balancesGrow id d :
  preserves balancesGrow (Prisma.gameRound_update id d).
Proof.
  intros db db' b. unfold Prisma.gameRound_update.
  destruct (gameRound db !! id); [|done]. intros [= <- _].
  by apply balancesGrow_wallets.
Qed.

Lemma gameRound_updateMany_balancesGrow id userId st d :
  preserves balancesGrow (Prisma.gameRound_updateMany id userId st d).
Proof.
  intros db db' b. unfold Prisma.gameRound_updateMany.
  repeat case_match; intros [= <- _]; by apply balancesGrow_wallets.
Qed.

Lemma gameRound_create_balancesGrow id r :
  preserves balancesGrow (Prisma.gameRound_create id r).
Proof.
  intros db db' b. unfold Prisma.gameRound_create.
  destruct (gameRound db !! id); [done|]. intros [= <- _].
  by apply balancesGrow_wallets.
Qed.

Lemma gameWallet_create_balancesGrow userId w :
  0 ≤ GameWallet.balance w →
  preserves balancesGrow (Prisma.gameWallet_create userId w).
Proof.
  intros Hw db db' b. unfold Prisma.gameWallet_create.
  destruct (gameWallet db !! userId) eqn:Hnone; [done|]. intros [= <- _].
  apply balancesGrow_insert. by rewrite Hnone.
Qed.

Lemma gameWallet_increment_balancesGrow userId id points now :
  (0 <? points) = true →
  preserves balancesGrow (Prisma.gameWallet_increment userId id points now).
Proof.
  intros Hpoints%Z.ltb_lt db db' b. unfold Prisma.gameWallet_increment.
  destruct (gameWallet db !! userId) as [w|] eqn:Hw; [|done].
  case_bool_decide; [|done]. intros [= <- _].
  apply balancesGrow_insert. rewrite Hw.
  unfold balanceOr0, GameWallet.credit. simpl. lia.
Qed.

Lemma roundLog_create_balancesGrow l :
  preserves balancesGrow (Prisma.roundLog_create l).
Proof. intros db db' b [= <- _]. by apply balancesGrow_wallets. Qed.

Lemma roundLog_createMany_balancesGrow ls :
  preserves balancesGrow (Prisma.roundLog_createMany ls).
Proof. intros db db' b [= <- _]. by apply balancesGrow_wallets. Qed.

Lemma gameRound_update_roundsKeepIdentity id d :
  GameRound.keepsIdentity d →
  preserves roundsKeepIdentity (Prisma.gameRound_update id d).
Proof.
  intros Hd db db' b. unfold Prisma.gameRound_update.
  destruct (gameRound db !! id) eqn:Hstored; [|done]. intros [= <- _].
  by apply roundsKeepIdentity_insert.
Qed.

Lemma roundLog_create_roundsKeepIdentity l :
  preserves roundsKeepIdentity (Prisma.roundLog_create l).
Proof. intros db db' b [= <- _]. by apply roundsKeepIdentity_rounds. Qed.

Lemma gameRound_updateMany_roundsKeepHand id userId st d :
  GameRound.keepsHand d →
  preserves roundsKeepHand (Prisma.gameRound_updateMany id userId st d).
Proof.
  intros Hd db db' b. unfold Prisma.gameRound_updateMany.
  destruct (gameRound db !! id) eqn:Hstored; [|intros [= <- _]; reflexivity].
  case_match; intros [= <- _]; [|reflexivity].
  by apply roundsKeepHand_insert.
Qed.

Lemma gameWallet_create_roundsKeepHand userId w :
  preserves roundsKeepHand (Prisma.gameWallet_create userId w).
Proof.
  intros db db' b. unfold Prisma.gameWallet_create.
  destruct (gameWallet db !! userId); [done|]. intros [= <- _].
  by apply roundsKeepHand_rounds.
Qed.

Lemma gameWallet_increment_roundsKeepHand userId id points now :
  preserves roundsKeepHand (Prisma.gameWallet_increment userId id points now).
Proof.
  intros db db' b. unfold Prisma.gameWallet_increment.
  repeat case_match; try done; intros [= <- _];
    by apply roundsKeepHand_rounds.
Qed.

Lemma roundLog_create_roundsKeepHand l :
  preserves roundsKeepHand (Prisma.roundLog_create l).
Proof. intros db db' b [= <- _]. by apply roundsKeepHand_rounds. Qed.

Create HintDb prisma discriminated.

#[global] Hint Resolve hitData_keepsIdentity standData_keepsHand
  gameRound_update_balancesGrow
  gameRound_updateMany_balancesGrow gameRound_create_balancesGrow
  gameWallet_create_balancesGrow gameWallet_increment_balancesGrow
  roundLog_create_balancesGrow roundLog_createMany_balancesGrow
  gameRound_update_roundsKeepIdentity roundLog_create_roundsKeepIdentity
  gameRound_updateMany_roundsKeepHand gameWallet_create_roundsKeepHand
  gameWallet_increment_roundsKeepHand roundLog_create_roundsKeepHand
  : prisma.

(** Walks through a handler, one awaited call after the other. *)
Ltac respects :=
  repeat first
    [ apply Respects_Return
    | apply Respects_Throw
    | apply Respects_Await;
      [ first [ solve [apply gameRound_findFirst_preserves; apply _]
              | solve [apply gameRound_findFirstPlaying_preserves; apply _]
              | solve [apply gameRound_findUnique_preserves; apply _]
              | solve [apply gameWallet_findUnique_preserves; apply _]
              | solve [apply gameWallet_create_balancesGrow; simpl; lia]
              | apply transaction_preserves; [apply _|]
              | by eauto with prisma ]
      | intros ? ]
    | progress cbv zeta
    | case_match ].

Lemma hit_balancesGrow env session body :
  Respects balancesGrow (hit env session body).
Proof. unfold hit, hitWith, respond. respects. Qed.

Lemma hit_roundsKeepIdentity env session body :
  Respects roundsKeepIdentity (hit env session body).
Proof. unfold hit, hitWith, respond. respects. Qed.

Lemma stand_balancesGrow env session body :
  Respects balancesGrow (stand env session body).
Proof.
  unfold stand, standLoaded, standWith, respond. respects;
    unfold standTransaction; respects.
Qed.

Lemma stand_roundsKeepHand env session body :
  Respects roundsKeepHand (stand env session body).
Proof.
  unfold stand, standLoaded, standWith, respond. respects;
    unfold standTransaction; respects.
Qed.

Lemma start_balancesGrow env session body :
  Respects balancesGrow (start env session body).
Proof. unfold start, startWith, respond. respects. Qed.

(** ** Standing *)

(** C3. For a playing round, stand makes the round finished, sets its total
    to the best total of the hand and its points to [calculatePoints] of that
    total, adds exactly these points to the wallet when they are positive and
    leaves the wallet alone when they are not, and logs the stand; and no
    balance is ever decreased: [updateBalance] never returns less than the
    balance it is given, and no request to hit, stand or start lowers the
    balance of any user. *)
Theorem stand_finishes_and_credits (env : StandEnv) (userId roundId : string)
    (round : GameRound.t) (wallet : GameWallet.t) (db : DB) :
  roundId ≠ EmptyString →
  gameRound db !! roundId = Some round →
  GameRound.userId round = userId →
  GameRound.state round = PLAYING →
  Forall (λ c, isCardCode c = true) (GameRound.hand round) →
  gameWallet db !! userId = Some wallet →
  let res := POST (stand env (Some userId)
                         (Some {| stand_roundId := Some roundId |})) db in
  (∃ t, calculateBestTotal (GameRound.hand round) = Some t
     ∧ let points := calculatePoints (total t) in
       let round' := GameRound.apply (standData env (total t) points) round in
       gameRound res.1 = <[roundId := round']> (gameRound db)
       ∧ GameRound.state round' = FINISHED
       ∧ GameRound.total round' = total t
       ∧ GameRound.points round' = points
       ∧ balanceOr0 (gameWallet res.1 !! userId)
         = updateBalance (GameWallet.balance wallet) points
       ∧ (0 < points →
            gameWallet res.1
            = <[userId := GameWallet.credit wallet points (stand_now env)]>
                (gameWallet db)
            ∧ balanceOr0 (gameWallet res.1 !! userId)
              = GameWallet.balance wallet + points)
       ∧ (points ≤ 0 → gameWallet res.1 = gameWallet db)
       ∧ roundLog res.1
         = roundLog db ++ [standLog env roundId round (total t)]
       ∧ res.2 = json (StateBody
                         (snapshot roundId round'
                            (updateBalance (GameWallet.balance wallet) points)))
                      200)
  ∧ (∀ balance points, balance ≤ updateBalance balance points)
  ∧ (∀ henv senv tenv session hbody sbody tbody db0,
       balancesGrow db0 (POST (hit henv session hbody) db0).1
       ∧ balancesGrow db0 (POST (stand senv session sbody) db0).1
       ∧ balancesGrow db0 (POST (start tenv session tbody) db0).1).
Proof.
  intros Hid Hround Huser Hstate Hvalid Hwallet res. split_and!.
  - destruct (calculateBestTotal_valid _ Hvalid) as [t Ht]. exists t.
    split; [done|]. intros points round'.
    assert (Hres : res = POST (standWith env roundId userId round wallet) db)
      by (by apply stand_found).
    rewrite (standWith_wins _ _ _ _ _ _ round wallet t) in Hres by done.
    fold points in Hres. rewrite Hres. unfold standDB, updateBalance. simpl.
    split_and!; try done.
    + destruct (Z.ltb_spec 0 points).
      * by rewrite lookup_insert_eq.
      * by rewrite Hwallet.
    + intros Hpos. destruct (Z.ltb_spec 0 points); [|lia].
      by rewrite lookup_insert_eq.
    + intros Hle. by destruct (Z.ltb_spec 0 points); [lia|].
  - intros balance points. unfold updateBalance.
    destruct (Z.ltb_spec 0 points); lia.
  - intros henv senv tenv session hbody sbody tbody db0. split_and!.
    + apply POST_Respects; [apply _|apply hit_balancesGrow].
    + apply POST_Respects; [apply _|apply stand_balancesGrow].
    + apply POST_Respects; [apply _|apply start_balancesGrow].
Qed.

Lemma stand_finishes_and_credits_witness :
  let round := sampleRound 2 ["4S"; "6H"]%string 10 in
  let db := sampleDB round in
  let env := sampleStandEnv in
  let res := POST (stand env (Some "alice"%string)
                         (Some {| stand_roundId := Some "rnd_1"%string |})) db in
  (∃ t, calculateBestTotal (GameRound.hand round) = Some t
     ∧ let points := calculatePoints (total t) in
       let round' := GameRound.apply (standData env (total t) points) round in
       gameRound res.1 = <["rnd_1"%string := round']> (gameRound db)
       ∧ GameRound.state round' = FINISHED
       ∧ GameRound.total round' = total t
       ∧ GameRound.points round' = points
       ∧ balanceOr0 (gameWallet res.1 !! "alice"%string)
         = updateBalance (GameWallet.balance sampleWallet) points
       ∧ (0 < points →
            gameWallet res.1
            = <["alice"%string :=
                  GameWallet.credit sampleWallet points (stand_now env)]>
                (gameWallet db)
            ∧ balanceOr0 (gameWallet res.1 !! "alice"%string)
              = GameWallet.balance sampleWallet + points)
       ∧ (points ≤ 0 → gameWallet res.1 = gameWallet db)
       ∧ roundLog res.1
         = roundLog db ++ [standLog env "rnd_1" round (total t)]
       ∧ res.2 = json (StateBody
                         (snapshot "rnd_1" round'
                            (updateBalance (GameWallet.balance sampleWallet)
                                           points)))
                      200)
  ∧ (∀ balance points, balance ≤ updateBalance balance points)
  ∧ (∀ henv senv tenv session hbody sbody tbody db0,
       balancesGrow db0 (POST (hit henv session hbody) db0).1
       ∧ balancesGrow db0 (POST (stand senv session sbody) db0).1
       ∧ balancesGrow db0 (POST (start tenv session tbody) db0).1).
Proof.
  apply (stand_finishes_and_credits sampleStandEnv "alice" "rnd_1"
           (sampleRound 2 ["4S"; "6H"]%string 10) sampleWallet
           (sampleDB (sampleRound 2 ["4S"; "6H"]%string 10))).
  - discriminate.
  - vm_compute. reflexivity.
  - reflexivity.
  - reflexivity.
  - repeat constructor.
  - vm_compute. reflexivity.
Defined.

(** ** Conflicts *)

(** C6. On a round that is not playing, hit writes nothing, and stand leaves
    the rounds, the log and every balance as they are (it writes nothing at
    all when the user has a wallet row; when the row is missing it creates it
    with balance 0, the balance that a missing row stands for); on a playing
    round, a hit whose [expectedNonce] is not the round's nonce writes
    nothing.  In each case, for a hand of card codes, the answer is 409 with
    the snapshot of the round as stored. *)
Theorem conflicts_write_nothing (henv : HitEnv) (senv : StandEnv)
    (userId roundId : string) (expectedNonce : option Z)
    (round : GameRound.t) (db : DB) :
  roundId ≠ EmptyString →
  gameRound db !! roundId = Some round →
  GameRound.userId round = userId →
  let hitRes := POST (hit henv (Some userId)
                          (Some {| hit_roundId := Some roundId;
                                   hit_expectedNonce := expectedNonce |})) db in
  let standRes := POST (stand senv (Some userId)
                              (Some {| stand_roundId := Some roundId |})) db in
  let current :=
    snapshot roundId round (balanceOr0 (gameWallet db !! userId)) in
  (GameRound.state round ≠ PLAYING →
     hitRes.1 = db
     ∧ gameRound standRes.1 = gameRound db
     ∧ roundLog standRes.1 = roundLog db
     ∧ (∀ u, balanceOr0 (gameWallet standRes.1 !! u)
             = balanceOr0 (gameWallet db !! u))
     ∧ (is_Some (gameWallet db !! userId) → standRes.1 = db)
     ∧ (Forall (λ c, isCardCode c = true) (GameRound.hand round) →
          hitRes.2 = json (StateBody current) 409
          ∧ standRes.2 = json (StateBody current) 409))
  ∧ (GameRound.state round = PLAYING →
     (∃ e, expectedNonce = Some e ∧ e ≠ GameRound.nonce round) →
     hitRes.1 = db
     ∧ (Forall (λ c, isCardCode c = true) (GameRound.hand round) →
          hitRes.2 = json (ErrorCurrentBody
                             "Round changed since client last sync" current)
                          409)).
Proof.
  intros Hid Hround Huser hitRes standRes current.
  assert (Hhit : hitRes
                 = POST (hitWith henv roundId userId expectedNonce round) db)
    by (by apply hit_found).
  split.
  - intros Hstate. rewrite hitWith_not_playing in Hhit by done.
    destruct (gameWallet db !! userId) as [wallet|] eqn:Hwallet.
    + assert (Hstand : standRes
                       = POST (standWith senv roundId userId round wallet) db)
        by (by apply stand_found).
      rewrite standWith_not_playing in Hstand by done.
      rewrite Hhit, Hstand. simpl. split_and!; try done.
      intros Hvalid. by rewrite !toApiState_valid.
    + pose proof (stand_found_new_wallet senv userId roundId round db
                    Hid Hround Huser Hwallet) as Hstand.
      cbv zeta in Hstand. rewrite standWith_not_playing in Hstand by done.
      fold standRes in Hstand. rewrite Hhit, Hstand. simpl.
      split_and!; try done.
      * intros u. destruct (decide (userId = u)) as [<-|Hne].
        -- by rewrite lookup_insert_eq, Hwallet.
        -- by rewrite lookup_insert_ne.
      * intros Hvalid. by rewrite !toApiState_valid.
  - intros Hstate (e & -> & Hne).
    rewrite (hitWith_stale _ _ _ _ _ _ e) in Hhit by done.
    rewrite Hhit. simpl. split; [done|].
    intros Hvalid. by rewrite toApiState_valid.
Qed.

Lemma conflicts_write_nothing_witness :
  let round := sampleRound 2 ["4S"; "6H"]%string 10 in
  let db := sampleDB round in
  let hitRes := POST (hit sampleHitEnv (Some "alice"%string)
                          (Some {| hit_roundId := Some "rnd_1"%string;
                                   hit_expectedNonce := Some 1 |})) db in
  let standRes := POST (stand sampleStandEnv (Some "alice"%string)
                          (Some {| stand_roundId := Some "rnd_1"%string |})) db in
  let current :=
    snapshot "rnd_1" round (balanceOr0 (gameWallet db !! "alice"%string)) in
  (GameRound.state round ≠ PLAYING →
     hitRes.1 = db
     ∧ gameRound standRes.1 = gameRound db
     ∧ roundLog standRes.1 = roundLog db
     ∧ (∀ u, balanceOr0 (gameWallet standRes.1 !! u)
             = balanceOr0 (gameWallet db !! u))
     ∧ (is_Some (gameWallet db !! "alice"%string) → standRes.1 = db)
     ∧ (Forall (λ c, isCardCode c = true) (GameRound.hand round) →
          hitRes.2 = json (StateBody current) 409
          ∧ standRes.2 = json (StateBody current) 409))
  ∧ (GameRound.state round = PLAYING →
     (∃ e, Some 1 = Some e ∧ e ≠ GameRound.nonce round) →
     hitRes.1 = db
     ∧ (Forall (λ c, isCardCode c = true) (GameRound.hand round) →
          hitRes.2 = json (ErrorCurrentBody
                             "Round changed since client last sync" current)
                          409)).
Proof.
  apply (conflicts_write_nothing sampleHitEnv sampleStandEnv "alice" "rnd_1"
           (Some 1) (sampleRound 2 ["4S"; "6H"]%string 10)
           (sampleDB (sampleRound 2 ["4S"; "6H"]%string 10))).
  - discriminate.
  - vm_compute. reflexivity.
  - reflexivity.
Defined.

(** ** What a hit and a stand leave alone *)

(** C10. A hit never changes the seed of a round, nor its user, its creation
    time or its wallet link: what it may change is the hand, total, nonce,
    state, points, [finishedAt] and [updatedAt].  A stand leaves, besides
    these, the nonce and the hand exactly as they were.  This holds for every
    request, every database and every stored round. *)
Theorem hit_and_stand_frame (henv : HitEnv) (senv : StandEnv)
    (session : option string) (hbody : option HitBody)
    (sbody : option StandBody) (db : DB) :
  (∀ id r, gameRound db !! id = Some r →
     ∃ r', gameRound (POST (hit henv session hbody) db).1 !! id = Some r'
           ∧ GameRound.seed r' = GameRound.seed r
           ∧ GameRound.userId r' = GameRound.userId r
           ∧ GameRound.createdAt r' = GameRound.createdAt r
           ∧ GameRound.gameWalletId r' = GameRound.gameWalletId r)
  ∧ (∀ id r, gameRound db !! id = Some r →
     ∃ r', gameRound (POST (stand senv session sbody) db).1 !! id = Some r'
           ∧ GameRound.seed r' = GameRound.seed r
           ∧ GameRound.nonce r' = GameRound.nonce r
           ∧ GameRound.hand r' = GameRound.hand r
           ∧ GameRound.userId r' = GameRound.userId r
           ∧ GameRound.createdAt r' = GameRound.createdAt r
           ∧ GameRound.gameWalletId r' = GameRound.gameWalletId r).
Proof.
  split; intros id r Hr.
  - destruct (POST_Respects roundsKeepIdentity (hit henv session hbody) db
                (hit_roundsKeepIdentity _ _ _) id r Hr)
      as (r' & ? & ? & ? & ? & ?).
    exists r'. by split_and!.
  - destruct (POST_Respects roundsKeepHand (stand senv session sbody) db
                (stand_roundsKeepHand _ _ _) id r Hr)
      as (r' & ? & ? & ? & ? & ? & ? & ?).
    exists r'. by split_and!.
Qed.

Lemma hit_and_stand_frame_witness :
  let round := sampleRound 1 ["4S"%string] 4 in
  let db := sampleDB round in
  (∃ r', gameRound (POST (hit sampleHitEnv (Some "alice"%string)
                        (Some {| hit_roundId := Some "rnd_1"%string;
                                 hit_expectedNonce := None |})) db).1
           !! "rnd_1"%string = Some r'
         ∧ GameRound.seed r' = GameRound.seed round
         ∧ GameRound.userId r' = GameRound.userId round
         ∧ GameRound.createdAt r' = GameRound.createdAt round
         ∧ GameRound.gameWalletId r' = GameRound.gameWalletId round)
  ∧ (∃ r', gameRound (POST (stand sampleStandEnv (Some "alice"%string)
                        (Some {| stand_roundId := Some "rnd_1"%string |})) db).1
           !! "rnd_1"%string = Some r'
         ∧ GameRound.seed r' = GameRound.seed round
         ∧ GameRound.nonce r' = GameRound.nonce round
         ∧ GameRound.hand r' = GameRound.hand round
         ∧ GameRound.userId r' = GameRound.userId round
         ∧ GameRound.createdAt r' = GameRound.createdAt round
         ∧ GameRound.gameWalletId r' = GameRound.gameWalletId round).
Proof.
  destruct (hit_and_stand_frame sampleHitEnv sampleStandEnv
              (Some "alice"%string)
              (Some {| hit_roundId := Some "rnd_1"%string;
                       hit_expectedNonce := None |})
              (Some {| stand_roundId := Some "rnd_1"%string |})
              (sampleDB (sampleRound 1 ["4S"%string] 4))) as [Hhit Hstand].
  split.
  - apply Hhit. vm_compute. reflexivity.
  - apply Hstand. vm_compute. reflexivity.
Defined.

(** ** Two stands on one round *)

Lemma step_Await {R B} (q : Query B) (k : B → Prog R) db db' b :
  q db = Some (db', b) → step (Await q k) db = (db', k b).
Proof. intros Hq. simpl. by rewrite Hq. Qed.

Lemma standWith_playing env roundId userId round wallet t :
  GameRound.state round = PLAYING →
  Forall (λ c, isCardCode c = true) (GameRound.hand round) →
  calculateBestTotal (GameRound.hand round) = Some t →
  standWith env roundId userId round wallet
  = let! result :=
      transaction (standTransaction env roundId userId round wallet (total t)
                                    (calculatePoints (total t))) in
    match result_round result with
    | None => Throw
    | Some r =>
        respond (toApiState roundId r
                   (GameWallet.balance (result_wallet result)))
                (λ s, json (StateBody s)
                           (if finalized result then 200 else 409))
    end.
Proof.
  intros Hstate Hvalid Ht. unfold standWith.
  rewrite bool_decide_eq_false_2 by naive_solver.
  unfold assertCardCodes.
  assert (forallb isCardCode (GameRound.hand round) = true) as ->.
  { apply forallb_forall. intros c Hc.
    apply (proj1 (Forall_forall _ _) Hvalid). by apply list_elem_of_In. }
  simpl. by rewrite Ht.
Qed.

Lemma stand_request env userId roundId :
  roundId ≠ EmptyString →
  stand env (Some userId) (Some {| stand_roundId := Some roundId |})
  = let! round := Prisma.gameRound_findFirst roundId userId in
    match round with
    | None => Return (json (ErrorBody "Round not found") 404)
    | Some round => standLoaded env roundId userId round
    end.
Proof. intros Hid. unfold stand. simpl. by destruct roundId. Qed.

Section RaceProofs.
Context (roundId userId : string) (round0 : GameRound.t).
Context (wallet0 : GameWallet.t) (db0 : DB) (t0 : HandTotal).
Context (Hid : roundId ≠ EmptyString).
Context (Hround0 : gameRound db0 !! roundId = Some round0).
Context (Huser : GameRound.userId round0 = userId).
Context (Hplaying : GameRound.state round0 = PLAYING).
Context (Hvalid : Forall (λ c, isCardCode c = true) (GameRound.hand round0)).
Context (Ht0 : calculateBestTotal (GameRound.hand round0) = Some t0).
Context (Hwallet0 : gameWallet db0 !! userId = Some wallet0).

Local Abbreviation request := (standRequest roundId userId).
Local Abbreviation final := (finalDB roundId userId round0 wallet0 db0 t0).
Local Abbreviation finalR := (finalRound round0 t0).
Local Abbreviation finalW := (finalWallet wallet0 t0).
Local Abbreviation answer := (raceAnswer roundId round0 wallet0 t0).
Local Abbreviation points := (racePoints t0).

Lemma final_round winner : gameRound (final winner) !! roundId = Some (finalR winner).
Proof. apply lookup_insert_eq. Qed.

Lemma final_wallet winner :
  gameWallet (final winner) !! userId = Some (finalW winner).
Proof.
  unfold finalDB, standDB, finalWallet. simpl.
  destruct (0 <? points); [apply lookup_insert_eq|done].
Qed.

Lemma finalW_balance winner :
  GameWallet.balance (finalW winner)
  = updateBalance (GameWallet.balance wallet0) points.
Proof.
  unfold finalWallet, updateBalance. by destruct (0 <? points).
Qed.

Lemma step_request env db r :
  gameRound db !! roundId = Some r →
  GameRound.userId r = userId →
  step (request env) db = (db, standLoaded env roundId userId r).
Proof.
  intros Hr Hu. unfold standRequest. rewrite stand_request by done.
  rewrite (step_Await _ _ db db (Some r)); [done|].
  unfold Prisma.gameRound_findFirst. rewrite Hr. simpl.
  by rewrite bool_decide_eq_true_2.
Qed.

Lemma step_loaded env db r w :
  gameWallet db !! userId = Some w →
  step (standLoaded env roundId userId r) db
  = (db, standWith env roundId userId r w).
Proof. intros Hw. unfold standLoaded. simpl. by rewrite Hw. Qed.

Lemma step_with_wins env :
  step (standWith env roundId userId round0 wallet0) db0
  = (final env, Return (answer env 200)).
Proof.
  rewrite (standWith_playing _ _ _ _ _ t0) by done.
  erewrite step_Await;
    [|apply (standTransaction_wins _ _ _ _ _ _ round0 wallet0); done].
  cbn [result_round result_wallet finalized].
  rewrite toApiState_valid by exact Hvalid. simpl. unfold raceAnswer.
  by rewrite <-(finalW_balance env).
Qed.

Lemma step_with_loses winner env w :
  step (standWith env roundId userId round0 w) (final winner)
  = (final winner, Return (answer winner 409)).
Proof.
  rewrite (standWith_playing _ _ _ _ _ t0) by done.
  erewrite step_Await; last first.
  { apply (standTransaction_loses _ _ _ _ _ _ (finalR winner));
      [apply final_round|done]. }
  cbn [result_round result_wallet finalized].
  rewrite final_wallet. cbn [default].
  rewrite toApiState_valid by exact Hvalid. simpl. unfold raceAnswer.
  by rewrite finalW_balance.
Qed.

Lemma standWith_final winner env :
  standWith env roundId userId (finalR winner) (finalW winner)
  = Return (answer winner 409).
Proof.
  unfold standWith. rewrite bool_decide_eq_true_2 by done.
  rewrite toApiState_valid by exact Hvalid. simpl. unfold raceAnswer.
  by rewrite finalW_balance.
Qed.

Lemma Pending_Late winner env n p :
  Pending roundId userId round0 wallet0 env n p →
  Late roundId userId round0 wallet0 t0 winner env n p.
Proof. destruct 1; by constructor. Qed.

Lemma Pending_step env n p :
  Pending roundId userId round0 wallet0 env n p →
  (step p db0 = (final env, Return (answer env 200)))
  ∨ ∃ p', step p db0 = (db0, p')
          ∧ Pending roundId userId round0 wallet0 env (pred n) p'.
Proof.
  destruct 1.
  - right. eexists. split; [by apply step_request|]. constructor. lia.
  - right. eexists. split; [by apply step_loaded|]. constructor. lia.
  - left. apply step_with_wins.
Qed.

Lemma Late_step winner env n p :
  Late roundId userId round0 wallet0 t0 winner env n p →
  ∃ p', step p (final winner) = (final winner, p')
        ∧ Late roundId userId round0 wallet0 t0 winner env (pred n) p'.
Proof.
  destruct 1.
  - eexists. split; [apply step_request; [apply final_round|exact Huser]|].
    constructor. lia.
  - eexists. split; [apply step_loaded, final_wallet|]. constructor. lia.
  - eexists. split; [apply step_loaded, final_wallet|].
    rewrite standWith_final. constructor.
  - eexists. split; [apply step_with_loses|]. constructor.
  - eexists. split; [done|]. constructor.
Qed.

Lemma Pending_not_Return env n p r :
  Pending roundId userId round0 wallet0 env n p → p ≠ Return r.
Proof.
  destruct 1.
  - unfold standRequest. by rewrite stand_request.
  - done.
  - by rewrite (standWith_playing _ _ _ _ _ t0).
Qed.

Lemma Pending_bound env n p :
  Pending roundId userId round0 wallet0 env n p → (1 ≤ n)%nat.
Proof. destruct 1; lia. Qed.

Lemma Late_Return winner env n p r :
  Late roundId userId round0 wallet0 t0 winner env n p →
  p = Return r → r = answer winner 409.
Proof.
  destruct 1.
  - unfold standRequest. by rewrite stand_request.
  - done.
  - done.
  - by rewrite (standWith_playing _ _ _ _ _ t0).
  - by intros [= <-].
Qed.

Lemma Late_bound winner env p :
  Late roundId userId round0 wallet0 t0 winner env 0 p →
  p = Return (answer winner 409).
Proof. inversion 1; subst; try lia. done. Qed.

Lemma RaceInv_step1 env1 env2 n1 n2 cfg :
  RaceInv roundId userId round0 wallet0 db0 t0 env1 env2 n1 n2 cfg →
  RaceInv roundId userId round0 wallet0 db0 t0 env1 env2 (pred n1) n2
          (let '(db, p1, p2) := cfg in
           let '(db', p1') := step p1 db in (db', p1', p2)).
Proof.
  destruct 1 as [n1 n2 p1 p2 H1 H2|n1 n2 p2 H2|n1 n2 p1 H1].
  - destruct (Pending_step _ _ _ H1) as [->|(p' & -> & ?)].
    + constructor. by apply Pending_Late.
    + by constructor.
  - simpl. by constructor.
  - destruct (Late_step _ _ _ _ H1) as (p' & -> & ?). by constructor.
Qed.

Lemma RaceInv_step2 env1 env2 n1 n2 cfg :
  RaceInv roundId userId round0 wallet0 db0 t0 env1 env2 n1 n2 cfg →
  RaceInv roundId userId round0 wallet0 db0 t0 env1 env2 n1 (pred n2)
          (let '(db, p1, p2) := cfg in
           let '(db', p2') := step p2 db in (db', p1, p2')).
Proof.
  destruct 1 as [n1 n2 p1 p2 H1 H2|n1 n2 p2 H2|n1 n2 p1 H1].
  - destruct (Pending_step _ _ _ H2) as [->|(p' & -> & ?)].
    + constructor. by apply Pending_Late.
    + by constructor.
  - destruct (Late_step _ _ _ _ H2) as (p' & -> & ?). by constructor.
  - simpl. by constructor.
Qed.

Lemma RaceInv_interleave env1 env2 sched n1 n2 cfg :
  RaceInv roundId userId round0 wallet0 db0 t0 env1 env2 n1 n2 cfg →
  RaceInv roundId userId round0 wallet0 db0 t0 env1 env2
          (n1 - steps true sched) (n2 - steps false sched)
          (interleave sched cfg.1.2 cfg.2 cfg.1.1).
Proof.
  revert n1 n2 cfg.
  induction sched as [|who sched IH]; intros n1 n2 [[db p1] p2] Hinv.
  { simpl. by rewrite !Nat.sub_0_r. }
  destruct who; cbn [interleave fst snd].
  - replace (n1 - steps true (true :: sched))%nat
      with (pred n1 - steps true sched)%nat by (unfold steps; simpl; lia).
    replace (steps false (true :: sched)) with (steps false sched) by done.
    apply RaceInv_step1 in Hinv. destruct (step p1 db) as [db' p1'].
    by apply IH in Hinv.
  - replace (n2 - steps false (false :: sched))%nat
      with (pred n2 - steps false sched)%nat by (unfold steps; simpl; lia).
    replace (steps true (false :: sched)) with (steps true sched) by done.
    apply RaceInv_step2 in Hinv. destruct (step p2 db) as [db' p2'].
    by apply IH in Hinv.
Qed.

(** What the invariant says once both handlers have returned. *)
Lemma RaceInv_done env1 env2 n1 n2 cfg db r1 r2 :
  RaceInv roundId userId round0 wallet0 db0 t0 env1 env2 n1 n2 cfg →
  cfg = (db, Return r1, Return r2) →
  (db = final env1 ∧ r1 = answer env1 200 ∧ r2 = answer env1 409)
  ∨ (db = final env2 ∧ r2 = answer env2 200 ∧ r1 = answer env2 409).
Proof.
  destruct 1 as [n1 n2 p1 p2 H1 H2|n1 n2 p2 H2|n1 n2 p1 H1]; intros Hcfg;
    pose proof (f_equal (λ c, c.1.1) Hcfg) as Hdb;
    pose proof (f_equal (λ c, c.1.2) Hcfg) as Hp1;
    pose proof (f_equal snd Hcfg) as Hp2; simpl in Hdb, Hp1, Hp2.
  - exfalso. by eapply Pending_not_Return.
  - left. injection Hp1 as <-.
    split_and!; [done|done|by eapply Late_Return].
  - right. injection Hp2 as <-.
    split_and!; [done|done|by eapply Late_Return].
Qed.

(** Both handlers have returned once each has made three calls. *)
Lemma RaceInv_finished env1 env2 n1 n2 cfg :
  RaceInv roundId userId round0 wallet0 db0 t0 env1 env2 n1 n2 cfg →
  n1 = 0%nat → n2 = 0%nat →
  ∃ db r1 r2, cfg = (db, Return r1, Return r2).
Proof.
  destruct 1 as [n1 n2 p1 p2 H1 H2|n1 n2 p2 H2|n1 n2 p1 H1]; intros -> ->.
  - apply Pending_bound in H1. lia.
  - apply Late_bound in H2 as ->. eauto.
  - apply Late_bound in H1 as ->. eauto.
Qed.

End RaceProofs.

Lemma updateBalance_nonneg balance points :
  0 ≤ points → updateBalance balance points = balance + points.
Proof. intros ?. unfold updateBalance. destruct (Z.ltb_spec 0 points); lia. Qed.

(** C9. Two stand requests on the same playing round, their database calls
    interleaved in any order (each call, and the whole transaction, being one
    atomic action): when both have returned, exactly one has finalized the
    round and answers 200, the round is finished with its points set by that
    request, one stand entry is logged, the wallet is credited once with the
    points, and the other request has written nothing and answers 409 with
    the snapshot of the finalized round and the credited balance.  Both
    requests return once each has made its three calls. *)
Theorem concurrent_stands_one_winner (env1 env2 : StandEnv)
    (userId roundId : string) (round : GameRound.t) (wallet : GameWallet.t)
    (db : DB) (sched : list bool) :
  roundId ≠ EmptyString →
  gameRound db !! roundId = Some round →
  GameRound.userId round = userId →
  GameRound.state round = PLAYING →
  Forall (λ c, isCardCode c = true) (GameRound.hand round) →
  gameWallet db !! userId = Some wallet →
  ∃ t, calculateBestTotal (GameRound.hand round) = Some t
    ∧ let points := calculatePoints (total t) in
      let request env :=
        stand env (Some userId) (Some {| stand_roundId := Some roundId |}) in
      let final env :=
        standDB env roundId userId round round wallet (total t) points db in
      let answer env status :=
        json (StateBody
                (snapshot roundId
                   (GameRound.apply (standData env (total t) points) round)
                   (GameWallet.balance wallet + points))) status in
      (∀ db' r1 r2,
         interleave sched (request env1) (request env2) db
         = (db', Return r1, Return r2) →
         ((db' = final env1 ∧ r1 = answer env1 200 ∧ r2 = answer env1 409)
          ∨ (db' = final env2 ∧ r2 = answer env2 200 ∧ r1 = answer env2 409))
         ∧ balanceOr0 (gameWallet db' !! userId)
           = GameWallet.balance wallet + points
         ∧ (∃ l, roundLog db' = roundLog db ++ [l]
                 ∧ RoundLog.action l = LogStand)
         ∧ (∃ r', gameRound db' !! roundId = Some r'
                  ∧ GameRound.state r' = FINISHED
                  ∧ GameRound.points r' = points))
      ∧ ((3 ≤ steps true sched)%nat → (3 ≤ steps false sched)%nat →
         ∃ db' r1 r2,
           interleave sched (request env1) (request env2) db
           = (db', Return r1, Return r2)).
Proof.
  intros Hid Hround Huser Hstate Hvalid Hwallet.
  destruct (calculateBestTotal_valid _ Hvalid) as [t Ht]. exists t.
  split; [done|]. intros points request final answer.
  assert (Hinv : RaceInv roundId userId round wallet db t env1 env2
                   (3 - steps true sched) (3 - steps false sched)
                   (interleave sched (request env1) (request env2) db)).
  { apply (RaceInv_interleave roundId userId round wallet db t Hid Hround
             Huser Hstate Hvalid Ht Hwallet env1 env2 sched 3 3
             (db, request env1, request env2)).
    constructor; by constructor. }
  assert (Hanswer : ∀ env status,
            raceAnswer roundId round wallet t env status = answer env status).
  { intros env status. unfold raceAnswer, answer, racePoints.
    by rewrite updateBalance_nonneg by apply calculatePoints_nonneg. }
  split.
  - intros db' r1 r2 Hrun. rewrite Hrun in Hinv.
    assert (Hfinal : ∀ env,
              balanceOr0 (gameWallet (final env) !! userId)
              = GameWallet.balance wallet + points
              ∧ (∃ l, roundLog (final env) = roundLog db ++ [l]
                      ∧ RoundLog.action l = LogStand)
              ∧ (∃ r', gameRound (final env) !! roundId = Some r'
                       ∧ GameRound.state r' = FINISHED
                       ∧ GameRound.points r' = points)).
    { intros env. split_and!.
      - pose proof (final_wallet roundId userId round wallet db t Hwallet env)
          as Hw.
        unfold finalDB, racePoints in Hw. fold points in Hw. fold (final env) in Hw.
        rewrite Hw. unfold balanceOr0. simpl.
        rewrite (finalW_balance wallet t env). unfold racePoints.
        by rewrite updateBalance_nonneg by apply calculatePoints_nonneg.
      - eexists. split; [reflexivity|done].
      - eexists. split; [apply lookup_insert_eq|done]. }
    destruct (RaceInv_done roundId userId round wallet db t Hid Hstate Hvalid
                Ht env1 env2 _ _ _ db' r1 r2 Hinv eq_refl)
      as [(-> & -> & ->)|(-> & -> & ->)]; rewrite !Hanswer.
    + split; [by left|apply Hfinal].
    + split; [by right|apply Hfinal].
  - intros H1 H2.
    apply (RaceInv_finished roundId userId round wallet db t Huser Hwallet
             _ _ _ _ _ Hinv); lia.
Qed.

Lemma concurrent_stands_one_winner_witness :
  let round := sampleRound 2 ["4S"; "6H"]%string 10 in
  let db := sampleDB round in
  let env1 := sampleStandEnv in
  let env2 := {| stand_walletNow := 3100; stand_walletUuid := "u4";
                 stand_now := 3101; stand_logUuid := "u5" |} in
  let sched := [true; false; false; true; false; true] in
  ∃ t, calculateBestTotal (GameRound.hand round) = Some t
    ∧ let points := calculatePoints (total t) in
      let request env :=
        stand env (Some "alice"%string)
              (Some {| stand_roundId := Some "rnd_1"%string |}) in
      let final env :=
        standDB env "rnd_1" "alice" round round sampleWallet (total t)
                points db in
      let answer env status :=
        json (StateBody
                (snapshot "rnd_1"
                   (GameRound.apply (standData env (total t) points) round)
                   (GameWallet.balance sampleWallet + points))) status in
      (∀ db' r1 r2,
         interleave sched (request env1) (request env2) db
         = (db', Return r1, Return r2) →
         ((db' = final env1 ∧ r1 = answer env1 200 ∧ r2 = answer env1 409)
          ∨ (db' = final env2 ∧ r2 = answer env2 200 ∧ r1 = answer env2 409))
         ∧ balanceOr0 (gameWallet db' !! "alice"%string)
           = GameWallet.balance sampleWallet + points
         ∧ (∃ l, roundLog db' = roundLog db ++ [l]
                 ∧ RoundLog.action l = LogStand)
         ∧ (∃ r', gameRound db' !! "rnd_1"%string = Some r'
                  ∧ GameRound.state r' = FINISHED
                  ∧ GameRound.points r' = points))
      ∧ ((3 ≤ steps true sched)%nat → (3 ≤ steps false sched)%nat →
         ∃ db' r1 r2,
           interleave sched (request env1) (request env2) db
           = (db', Return r1, Return r2)).
Proof.
  apply (concurrent_stands_one_winner sampleStandEnv
           {| stand_walletNow := 3100; stand_walletUuid := "u4";
              stand_now := 3101; stand_logUuid := "u5" |}
           "alice" "rnd_1" (sampleRound 2 ["4S"; "6H"]%string 10) sampleWallet
           (sampleDB (sampleRound 2 ["4S"; "6H"]%string 10))
           [true; false; false; true; false; true]).
  - discriminate.
  - vm_compute. reflexivity.
  - reflexivity.
  - reflexivity.
  - repeat constructor.
  - vm_compute. reflexivity.
Defined.

(** ** The databases that the handlers can produce *)

Lemma wellFormed_round db id r :
  wellFormed db →
  Forall (λ c, isCardCode c = true) (GameRound.hand r) →
  is_Some (gameWallet db !! GameRound.userId r) →
  wellFormed (withRounds db (<[id := r]> (gameRound db))).
Proof.
  intros Hwf Hhand Hwallet id' r'. simpl.
  destruct (decide (id = id')) as [<-|Hne].
  - rewrite lookup_insert_eq. by intros [= <-].
  - rewrite lookup_insert_ne by done. apply Hwf.
Qed.

Lemma wellFormed_wallet db userId w :
  wellFormed db →
  wellFormed (withWallets db (<[userId := w]> (gameWallet db))).
Proof.
  intros Hwf id r Hr. destruct (Hwf id r Hr) as [Hhand Hwallet].
  split; [done|]. simpl.
  destruct (decide (userId = GameRound.userId r)) as [<-|Hne].
  - by rewrite lookup_insert_eq.
  - by rewrite lookup_insert_ne.
Qed.

Lemma wellFormed_logs db l : wellFormed db → wellFormed (withLogs db l).
Proof. intros Hwf id r Hr. apply (Hwf id r Hr). Qed.

Lemma findFirst_Some (m : gmap string GameRound.t) id userId r :
  m !! id ≫= (λ r, if bool_decide (GameRound.userId r = userId)
                   then Some r else None) = Some r →
  m !! id = Some r ∧ GameRound.userId r = userId.
Proof.
  intros (r' & Hr & Hif)%bind_Some. case_bool_decide; by simplify_eq.
Qed.

(** Walks through a handler run on one database. *)
Ltac execute :=
  repeat (case_match; simplify_eq/=; try done).

Ltac found_round :=
  match goal with
  | H : _ !! _ ≫= _ = Some _ |- _ =>
      apply findFirst_Some in H as [Hround Huser]
  end.

Lemma hit_wellFormed env session body db :
  wellFormed db → wellFormed (POST (hit env session body) db).1.
Proof.
  intros Hwf. unfold POST, hit, hitWith, respond. execute.
  all: found_round.
  all: match goal with
       | H : Prisma.gameRound_update _ _ _ = Some _ |- _ =>
           unfold Prisma.gameRound_update in H; rewrite Hround in H;
           injection H as <- <-
       end.
  all: match goal with
       | H : nextCardOf _ _ _ = Some _ |- _ =>
           apply nextCardOf_elem in H as [Hdeck _];
           [|apply createShuffledDeck_nonempty]
       end.
  all: destruct (Hwf _ _ Hround) as [Hhand Hwallet].
  all: apply wellFormed_logs, wellFormed_round; [done| |done].
  all: simpl; apply Forall_app; split; [done|]; constructor; [|done].
  all: by eapply createShuffledDeck_isCardCode.
Qed.

Global Instance keepsWellFormed_PreOrder : PreOrder keepsWellFormed.
Proof. split; unfold keepsWellFormed; [by intros db|by intros db1 db2 db3; auto]. Qed.

Lemma gameWallet_create_wellFormed userId w :
  preserves keepsWellFormed (Prisma.gameWallet_create userId w).
Proof.
  intros db db' b. unfold Prisma.gameWallet_create.
  destruct (gameWallet db !! userId); [done|]. intros [= <- _] Hwf.
  by apply wellFormed_wallet.
Qed.

Lemma gameWallet_increment_wellFormed userId id points now :
  preserves keepsWellFormed (Prisma.gameWallet_increment userId id points now).
Proof.
  intros db db' b. unfold Prisma.gameWallet_increment.
  repeat case_match; try done. intros [= <- _] Hwf.
  by apply wellFormed_wallet.
Qed.

Lemma gameRound_updateMany_wellFormed id userId st d :
  GameRound.keepsHand d →
  preserves keepsWellFormed (Prisma.gameRound_updateMany id userId st d).
Proof.
  intros ((Huser & _) & _ & Hhand) db db' b.
  unfold Prisma.gameRound_updateMany.
  destruct (gameRound db !! id) as [r|] eqn:Hr; [|by intros [= <- _]].
  case_match; intros [= <- _] Hwf; [|done].
  destruct (Hwf _ _ Hr) as [? ?].
  apply wellFormed_round; [done| |]; simpl; by rewrite ?Hhand, ?Huser.
Qed.

Lemma roundLog_create_wellFormed l :
  preserves keepsWellFormed (Prisma.roundLog_create l).
Proof. intros db db' b [= <- _] Hwf. by apply wellFormed_logs. Qed.

#[global] Hint Resolve gameWallet_create_wellFormed
  gameWallet_increment_wellFormed gameRound_updateMany_wellFormed
  roundLog_create_wellFormed : prisma.

Lemma stand_wellFormed env session body db :
  wellFormed db → wellFormed (POST (stand env session body) db).1.
Proof.
  apply (POST_Respects keepsWellFormed).
  unfold stand, standLoaded, standWith, respond. respects;
    unfold standTransaction; respects.
Qed.

Lemma drawCard_Some deck card rest :
  drawCard deck = Some (card, rest) → card ∈ deck.
Proof. destruct deck; [done|]. intros [= -> ->]. by left. Qed.

Lemma initRound_valid id now params started :
  initRound id now params = Some started →
  Forall (λ c, isCardCode c = true) (init_hand started)
  ∧ init_roundId started = id.
Proof.
  unfold initRound.
  assert (Forall (λ c, isCardCode c = true)
            (createShuffledDeck (param_seed params)
               (default 0 (param_nonce params)))) as Hdeck.
  { apply Forall_forall. intros c Hc.
    by eapply createShuffledDeck_isCardCode. }
  revert Hdeck.
  generalize (createShuffledDeck (param_seed params)
                (default 0 (param_nonce params))) as deck0.
  intros deck0 Hdeck Hinit.
  apply bind_Some in Hinit as ([[deck hand] logs] & Hdeal & Hinit).
  apply bind_Some in Hinit as (t & _ & [= <-]). cbn [init_hand init_roundId].
  split; [|done].
  destruct (param_dealOne params); [|injection Hdeal as _ <- _; constructor].
  apply bind_Some in Hdeal as ([card rest] & Hdraw%drawCard_Some & Hdeal).
  apply bind_Some in Hdeal as (t' & _ & Hdeal).
  injection Hdeal as _ <- _.
  constructor; [|constructor].
  by apply (proj1 (Forall_forall _ _) Hdeck).
Qed.

Lemma gameWallet_create_Some userId w db db' w' :
  Prisma.gameWallet_create userId w db = Some (db', w') →
  db' = withWallets db (<[userId := w]> (gameWallet db)) ∧ w' = w.
Proof.
  unfold Prisma.gameWallet_create.
  destruct (gameWallet db !! userId); [done|]. by intros [= <- <-].
Qed.

Lemma gameRound_create_Some id r db db' r' :
  Prisma.gameRound_create id r db = Some (db', r') →
  db' = withRounds db (<[id := r]> (gameRound db)) ∧ r' = r.
Proof.
  unfold Prisma.gameRound_create.
  destruct (gameRound db !! id); [done|]. by intros [= <- <-].
Qed.

Lemma start_wellFormed env session body db :
  wellFormed db → wellFormed (POST (start env session body) db).1.
Proof.
  intros Hwf. unfold POST, start, startWith, respond. execute.
  all: repeat match goal with
       | H : Prisma.gameWallet_create _ _ _ = Some _ |- _ =>
           apply gameWallet_create_Some in H as [-> ->]
       | H : Prisma.gameRound_create _ _ _ = Some _ |- _ =>
           apply gameRound_create_Some in H as [-> ->]
       | H : initRound _ _ _ = Some _ |- _ =>
           apply initRound_valid in H as [Hhand _]
       end.
  all: try apply wellFormed_logs.
  all: try (apply wellFormed_round; [|done|]).
  all: try by apply wellFormed_wallet.
  all: simpl; by rewrite ?lookup_insert_eq.
Qed.

(** In every database that the handlers can produce, the stored hands are
    made of card codes and the user of every round has a wallet row. *)
Lemma Reachable_wellFormed db : Reachable db → wellFormed db.
Proof.
  induction 1 as [|db req _ IH].
  - intros id r Hr. simpl in Hr. by rewrite lookup_empty in Hr.
  - destruct req; simpl.
    + by apply start_wellFormed.
    + by apply hit_wellFormed.
    + by apply stand_wellFormed.
Qed.

(** ** Starting a round *)

(** A start that deals one card stores a playing round whose hand is the
    card at position 0 of the canonical deck of its seed and whose nonce is
    1: a round in step with its deck, which the hits then keep in step. *)
Lemma start_creates_round_in_step env userId body db wallet :
  gameWallet db !! userId = Some wallet →
  Prisma.gameRound_findFirstPlaying userId db = Some (db, None) →
  gameRound db !! start_roundId env = None →
  default true (body ≫= start_dealOne) = true →
  ∃ c round',
    gameRound (POST (start env (Some userId) body) db).1 !! start_roundId env
    = Some round'
    ∧ GameRound.seed round'
      = deriveSeed [userId; start_isoDate env; start_seedUuid env]
    ∧ JS.index (createShuffledDeck (GameRound.seed round') 0) 0 = Some c
    ∧ GameRound.hand round' = [c]
    ∧ GameRound.nonce round' = 1
    ∧ GameRound.state round' = PLAYING
    ∧ GameRound.userId round' = userId
    ∧ consistent round'.
Proof.
  intros Hwallet Hnone Hfresh HdealOne.
  destruct (initRound_dealOne (start_roundId env) (start_initNow env)
              (deriveSeed [userId; start_isoDate env; start_seedUuid env]))
    as (c & started & Hc & Hinit & Hhand & Hnonce & Hseed & _ & _).
  pose proof (initRound_valid _ _ _ _ Hinit) as [Hvalid Hid].
  exists c. unfold start. rewrite POST_Await. simpl. rewrite Hwallet.
  unfold startWith. rewrite POST_Await, Hnone, HdealOne, Hinit.
  rewrite POST_Await. unfold Prisma.gameRound_create.
  rewrite Hid, Hfresh. rewrite POST_Await. simpl.
  rewrite POST_respond. simpl. rewrite lookup_insert_eq.
  eexists. split; [done|]. simpl. rewrite Hseed, Hhand, Hnonce.
  split; [reflexivity|]. split; [exact Hc|].
  do 4 (split; [reflexivity|]).
  split; [reflexivity|]. exact (eq_sym (take_S_r _ 0 c Hc)).
Qed.
